(** * mysh: a shallow embedding of [mysh.c]

    The shell reads a line, splits it at ['|'] into segments, forks one
    child per segment and lets the child tokenise its own segment, bind its
    standard streams and replace its image.  The development models

    - the C string functions the program uses ([strtok], [strcmp],
      [strcspn]) on [string];
    - the part of the kernel the program talks to: a per-process descriptor
      table, [pipe], [dup2], [close], [open], and a file system holding file
      contents;
    - [count_pipes], [process_args] and the body of the read loop of [main].

    Calls whose result the program cannot predict ([pipe], [fork],
    [execvp], [open] on a protected path) are answered by an explicit
    environment record. *)

From Stdlib Require Import ZArith Lia Ascii String.
From stdpp Require Import base gmap strings list fin_maps.

Local Open Scope string_scope.
Local Open Scope Z_scope.
Local Open Scope nat_scope.
Local Open Scope list_scope.

(** ** C strings *)

Module CString.

(** The line terminator, ['\n']. *)
Definition newline : ascii := "010"%char.
Definition space : ascii := " "%char.
Definition bar : ascii := "|"%char.
Definition NUL : ascii := "000"%char.

(** A buffer read as a C string stops at its first NUL. *)
Fixpoint c_str (buf : string) : string :=
  match buf with
  | EmptyString => EmptyString
  | String c rest => if Ascii.eqb c NUL then EmptyString else String c (c_str rest)
  end.

(** [s[strcspn(s, "\n")] = 0]: cut [s] at its first line terminator. *)
Fixpoint chomp (s : string) : string :=
  match s with
  | EmptyString => EmptyString
  | String c rest => if Ascii.eqb c newline then EmptyString else String c (chomp rest)
  end.

(** [strcmp(a, b) == 0]. *)
Definition streq (a b : string) : bool := String.eqb a b.

(** One call of [strtok] with the single delimiter [d], on the text that
    is still to be scanned: leading delimiters are skipped; if nothing is
    left the result is NULL ([None]); otherwise the token runs up to the
    next delimiter, which is overwritten by NUL, and the scan position
    moves just past it. *)
Fixpoint skip_delims (d : ascii) (s : string) : string :=
  match s with
  | EmptyString => EmptyString
  | String c rest => if Ascii.eqb c d then skip_delims d rest else s
  end.

Fixpoint take_token (d : ascii) (s : string) : string * string :=
  match s with
  | EmptyString => (EmptyString, EmptyString)
  | String c rest =>
      if Ascii.eqb c d then (EmptyString, rest)
      else let '(tok, after) := take_token d rest in (String c tok, after)
  end.

Definition strtok (d : ascii) (s : string) : option (string * string) :=
  match skip_delims d s with
  | EmptyString => None
  | s' => Some (take_token d s')
  end.

(** The tokens returned by [strtok(s, d)], [strtok(NULL, d)], ... until
    NULL, in order.  Every call consumes at least one character, so
    [String.length s] calls suffice (lemma [strtok_seq_fuel]). *)
Fixpoint strtok_seq (fuel : nat) (d : ascii) (s : string) : list string :=
  match fuel with
  | O => []
  | S fuel' =>
      match strtok d s with
      | None => []
      | Some (tok, after) => tok :: strtok_seq fuel' d after
      end
  end.

Definition tokens (d : ascii) (s : string) : list string :=
  strtok_seq (String.length s) d s.

End CString.
Export CString.
Arguments tokens : simpl never.

(** Text followed by the line terminator, as [fgets] delivers a line. *)
Definition line (text : string) : string := text +:+ String newline EmptyString.

(** ** The kernel as the program sees it *)

Module Kernel.

(** What a descriptor refers to.  [Inherited n] is whatever the shell was
    started with on descriptor [n] (its terminal, usually); the two ends of
    the [id]-th pipe created; a file opened by path with its open flags. *)
Inductive file_object : Type :=
| Inherited (n : nat)
| PipeRead (id : nat)
| PipeWrite (id : nat)
| OpenFile (path : string) (flags : Z).

#[global] Instance file_object_eq_dec : EqDecision file_object.
Proof. solve_decision. Defined.

(** A descriptor table maps the open descriptor numbers of one process to
    what they refer to. *)
Abbreviation fd_table := (gmap nat file_object).

(** The file system: path to contents. *)
Abbreviation file_system := (gmap string string).

(** Open flags, with their values in Linux's <fcntl.h> (octal 0, 1, 0100,
    01000, 02000), and the low two bits that hold the access mode. *)
Definition O_RDONLY : Z := 0.
Definition O_WRONLY : Z := 1.
Definition O_CREAT : Z := 64.
Definition O_TRUNC : Z := 512.
Definition O_APPEND : Z := 1024.
Definition O_ACCMODE : Z := 3.

Definition has_flag (flags flag : Z) : bool := Z.eqb (Z.land flags flag) flag.

(** The kernel hands out the lowest descriptor number that is not open. *)
Fixpoint lowest_free_from (t : fd_table) (fuel n : nat) : nat :=
  match fuel with
  | O => n
  | S fuel' =>
      match t !! n with
      | None => n
      | Some _ => lowest_free_from t fuel' (S n)
      end
  end.

Definition lowest_free (t : fd_table) : nat := lowest_free_from t (size t) 0.

(** [close(fd)]: fails (EBADF) when [fd] is not open; no other failure is
    modelled. *)
Definition sys_close (fd : nat) (t : fd_table) : option fd_table :=
  match t !! fd with
  | Some _ => Some (delete fd t)
  | None => None
  end.

(** [dup2(oldfd, newfd)]: fails (EBADF) when [oldfd] is not open; otherwise
    [newfd] refers to what [oldfd] refers to, whatever it referred to
    before. *)
Definition sys_dup2 (oldfd newfd : nat) (t : fd_table) : option fd_table :=
  match t !! oldfd with
  | Some obj => Some (<[newfd := obj]> t)
  | None => None
  end.

(** [pipe(fds)] when it succeeds: the read end gets the lowest free
    descriptor, the write end the next one.  [id] names the new pipe. *)
Definition sys_pipe (id : nat) (t : fd_table) : nat * nat * fd_table :=
  let r := lowest_free t in
  let t1 := <[r := PipeRead id]> t in
  let w := lowest_free t1 in
  (r, w, <[w := PipeWrite id]> t1).

(** [open(path, flags, mode)]: fails when the path is [denied] to the
    caller, or names no file and O_CREAT is not given.  O_CREAT makes a
    missing file, empty; O_TRUNC empties an existing one. *)
Definition sys_open (denied : string → bool) (path : string) (flags : Z)
    (fs : file_system) (t : fd_table) : option (nat * file_system * fd_table) :=
  if denied path then None
  else
    let fd := lowest_free t in
    let t' := <[fd := OpenFile path flags]> t in
    match fs !! path with
    | None =>
        if has_flag flags O_CREAT then Some (fd, <[path := EmptyString]> fs, t')
        else None
    | Some _ =>
        if has_flag flags O_TRUNC then Some (fd, <[path := EmptyString]> fs, t')
        else Some (fd, fs, t')
    end.

(** Where a [write] of [data] through an open file lands: at the end of the
    file when the file was opened with O_APPEND, at the file offset [pos]
    otherwise. *)
Definition write_offset (flags : Z) (pos : nat) (content : string) : nat :=
  if has_flag flags O_APPEND then String.length content else pos.

(** The permission bits [0644]: read and write for the owner, read for
    group and others. *)
Definition mode_0644 : Z := 6 * 8 ^ 2 + 4 * 8 + 4.

(** The descriptors a shell is started with. *)
Definition std_fds : fd_table :=
  {[ 0 := Inherited 0; 1 := Inherited 1; 2 := Inherited 2 ]}.

End Kernel.
Export Kernel.

(** What the program cannot know in advance. *)
Record environment : Type := {
  pipe_ok : nat → bool;      (** [pipe] succeeds when called for stage [i] *)
  fork_ok : nat → bool;      (** [fork] succeeds when called for stage [i] *)
  open_denied : string → bool; (** paths [open] refuses (EACCES and the like) *)
  exec_ok : string → bool    (** [execvp] finds and starts the program *)
}.

(** ** A child process running [process_args] *)

(** The size of the line buffer that [fgets] fills, and the number of slots
    of [opt_args_buf]. *)
Definition MAX_INPUT_LEN : nat := 4096.
Definition MAX_ARGS : nat := 10.

(** Behaviour the C standard leaves undefined and the program can reach. *)
Inductive undefined_behaviour : Type :=
| NullDereference          (** [strcspn] applied to a NULL pointer *)
| OutOfBounds (index : nat). (** a store to [opt_args_buf[index]] with [index >= MAX_ARGS] *)

(** How a process stops running the shell's code. *)
Inductive ending : Type :=
| Exited (status : Z)
| Execed (program : string) (argv : list string)
| Undefined (u : undefined_behaviour).

Inductive event : Type :=
| Perror (what : string)
| Open (path : string) (flags : Z) (mode : option Z)
| Wait
| Prompt.

(** The state of a child: its descriptor table, the file system, the
    argument buffer of [process_args] with its index, and what it has
    reported and opened so far. *)
Record process : Type := {
  fds : fd_table;
  files : file_system;
  opt_args_buf : list (option string);
  args_buf_index : nat;
  log : list event
}.

Inductive result (A : Type) : Type :=
| Returns (a : A) (p : process)
| Stops (e : ending) (p : process).
Arguments Returns {A} a p.
Arguments Stops {A} e p.

Definition child (A : Type) : Type := process → result A.

#[global] Instance child_ret : MRet child := λ A a p, Returns a p.
#[global] Instance child_bind : MBind child := λ A B f m p,
  match m p with
  | Returns a p' => f a p'
  | Stops e p' => Stops e p'
  end.

Definition exit {A} (status : Z) : child A := λ p, Stops (Exited status) p.
Definition undefined {A} (u : undefined_behaviour) : child A := λ p, Stops (Undefined u) p.

Definition emit (e : event) : child unit := λ p,
  Returns tt {| fds := fds p; files := files p; opt_args_buf := opt_args_buf p;
                args_buf_index := args_buf_index p; log := log p ++ [e] |}.

Definition perror (what : string) : child unit := emit (Perror what).

(** [dup2] and [close] in the child; [true] is success. *)
Definition dup2 (oldfd newfd : nat) : child bool := λ p,
  match sys_dup2 oldfd newfd (fds p) with
  | Some t => Returns true {| fds := t; files := files p; opt_args_buf := opt_args_buf p;
                              args_buf_index := args_buf_index p; log := log p |}
  | None => Returns false p
  end.

Definition close (fd : nat) : child bool := λ p,
  match sys_close fd (fds p) with
  | Some t => Returns true {| fds := t; files := files p; opt_args_buf := opt_args_buf p;
                              args_buf_index := args_buf_index p; log := log p |}
  | None => Returns false p
  end.

(** [open] in the child; the call is logged with its arguments. *)
Definition open (env : environment) (path : string) (flags : Z) (mode : option Z)
    : child (option nat) := λ p,
  let l := log p ++ [Open path flags mode] in
  match sys_open (open_denied env) path flags (files p) (fds p) with
  | Some (fd, fs, t) =>
      Returns (Some fd) {| fds := t; files := fs; opt_args_buf := opt_args_buf p;
                           args_buf_index := args_buf_index p; log := l |}
  | None =>
      Returns None {| fds := fds p; files := files p; opt_args_buf := opt_args_buf p;
                      args_buf_index := args_buf_index p; log := l |}
  end.

(** [if (call < 0) { perror(what); exit(status); }] *)
Definition or_die (call : child bool) (what : string) (status : Z) : child unit :=
  ok ← call; if ok : bool then mret tt else perror what ;; exit status.

(** [opt_args_buf[args_buf_index] = v].  The buffer has [MAX_ARGS] slots and
    the program checks no index. *)
Definition store_arg (v : option string) : child unit := λ p,
  if decide (args_buf_index p < MAX_ARGS) then
    Returns tt {| fds := fds p; files := files p;
                  opt_args_buf := <[args_buf_index p := v]> (opt_args_buf p);
                  args_buf_index := args_buf_index p; log := log p |}
  else Stops (Undefined (OutOfBounds (args_buf_index p))) p.

(** [args_buf_index++] *)
Definition next_arg : child unit := λ p,
  Returns tt {| fds := fds p; files := files p; opt_args_buf := opt_args_buf p;
                args_buf_index := S (args_buf_index p); log := log p |}.

(** The argument vector [execvp] reads: the entries up to the first NULL. *)
Fixpoint argv_of (buf : list (option string)) : list string :=
  match buf with
  | Some arg :: rest => arg :: argv_of rest
  | _ => []
  end.

(** [execvp(program_name, opt_args_buf)], with [perror] and [exit(3)] when
    it returns. *)
Definition execvp (env : environment) (program_name : string) : child Empty_set := λ p,
  if exec_ok env program_name
  then Stops (Execed program_name (argv_of (opt_args_buf p))) p
  else (perror "execvp" ;; exit 3) p.

(** The three redirections.  [file] is the token after the operator, NULL
    when the operator was the last token of the segment. *)
Definition redirect_input (env : environment) (input_file : option string) : child unit :=
  match input_file with
  | None => undefined NullDereference
  | Some input_file =>
      fd ← open env (chomp input_file) O_RDONLY None;
      match fd with
      | None => perror "open" ;; exit 1
      | Some fd => or_die (dup2 fd 0) "dup2" 2 ;; store_arg None
      end
  end.

Definition redirect_output (env : environment) (output_file : option string) : child unit :=
  match output_file with
  | None => undefined NullDereference
  | Some output_file =>
      fd ← open env (chomp output_file)
             (Z.lor (Z.lor O_TRUNC O_CREAT) O_WRONLY) (Some mode_0644);
      match fd with
      | None => perror "open" ;; exit 1
      | Some fd => or_die (dup2 fd 1) "dup2" 2 ;; store_arg None
      end
  end.

Definition redirect_append (env : environment) (output_file : option string) : child unit :=
  match output_file with
  | None => undefined NullDereference
  | Some output_file =>
      fd ← open env (chomp output_file)
             (Z.lor (Z.lor O_APPEND O_CREAT) O_WRONLY) (Some mode_0644);
      match fd with
      | None => perror "open" ;; exit 1
      | Some fd => or_die (dup2 fd 1) "dup2" 2 ;; store_arg None
      end
  end.

(** [opt_args_buf[args_buf_index] = token], cut at the line terminator, and
    [args_buf_index++]. *)
Definition keep_argument (token : string) : child unit :=
  store_arg (Some (chomp token)) ;; next_arg.

(** The [while (token != NULL)] loop of [process_args] over the tokens that
    [strtok(arg_str, " ")], [strtok(NULL, " ")], ... deliver.  A redirection
    operator takes the next token as its file name with a [strtok] of its
    own. *)
Fixpoint scan_tokens (env : environment) (toks : list string) : child unit :=
  match toks with
  | [] => mret tt
  | token :: rest =>
      if streq token (line "exit") then exit 0
      else if streq token "<" then
        match rest with
        | [] => redirect_input env None
        | file :: rest' => redirect_input env (Some file) ;; scan_tokens env rest'
        end
      else if streq token ">" then
        match rest with
        | [] => redirect_output env None
        | file :: rest' => redirect_output env (Some file) ;; scan_tokens env rest'
        end
      else if streq token ">>" then
        match rest with
        | [] => redirect_append env None
        | file :: rest' => redirect_append env (Some file) ;; scan_tokens env rest'
        end
      else keep_argument token ;; scan_tokens env rest
  end.

Arguments redirect_input : simpl never.
Arguments redirect_output : simpl never.
Arguments redirect_append : simpl never.
Arguments keep_argument : simpl never.

(** The two blocks that put the pipe ends on the standard streams. *)
Definition bind_stdout (write_fd : nat) : child unit :=
  if decide (write_fd ≠ 1)
  then or_die (dup2 write_fd 1) "dup2" 2 ;; or_die (close write_fd) "close" 1
  else mret tt.

Definition bind_stdin (read_fd : nat) : child unit :=
  if decide (read_fd ≠ 0)
  then or_die (dup2 read_fd 0) "dup2" 2 ;; or_die (close read_fd) "close" 1
  else mret tt.

(** What follows the loop: the program name, which is the first token, is
    cut at the line terminator (a NULL pointer when the segment had no
    token), the vector is closed by NULL, and the image is replaced. *)
Definition finish (env : environment) (program_name : option string) : child Empty_set :=
  match program_name with
  | None => undefined NullDereference
  | Some program_name => store_arg None ;; execvp env (chomp program_name)
  end.

Definition process_args_body (env : environment) (arg_str : string)
    (read_fd write_fd : nat) : child Empty_set :=
  bind_stdout write_fd ;;
  bind_stdin read_fd ;;
  let toks := tokens space arg_str in
  scan_tokens env toks ;;
  finish env (head toks).

(** A fresh activation of [process_args]: [junk] is what the stack holds
    where [opt_args_buf] is placed. *)
Definition enter (t : fd_table) (fs : file_system) (junk : list (option string)) : process :=
  {| fds := t; files := fs; opt_args_buf := junk; args_buf_index := 0; log := [] |}.

(** [process_args] never returns: it ends in [exit], in [execvp], or in
    undefined behaviour. *)
Definition process_args (env : environment) (arg_str : string) (read_fd write_fd : nat)
    (p : process) : ending * process :=
  match process_args_body env arg_str read_fd write_fd p with
  | Stops e p' => (e, p')
  | Returns impossible _ => match impossible with end
  end.

(** ** The shell: [count_pipes] and the read loop of [main] *)

(** [count_pipes]: the number of tokens, split at spaces, that are exactly
    ["|"]. *)
Definition count_pipes (input_buf : string) : nat :=
  fold_left (λ pipe_count token, if streq token "|" then pipe_count + 1 else pipe_count)
            (tokens space input_buf) 0.

(** A child as [fork] leaves it: the stage it was forked for, its segment
    of the line, the copy of the shell's descriptor table it starts with,
    and the two descriptors [main] passes to [process_args]. *)
Record spawn : Type := {
  stage_index : nat;
  arg_str : string;
  inherited : fd_table;
  given_read_fd : nat;
  given_write_fd : nat
}.

(** The shell process: its descriptor table, the variables of [main] that
    live across iterations of the stage loop, the pipes and children made
    so far, the children not yet waited for, and its output. *)
Record shell : Type := {
  sh_fds : fd_table;
  read_fd : nat;
  write_fd : nat;
  pipe_index : nat;
  pipes_made : nat;
  spawned : list spawn;
  unreaped : nat;
  sh_log : list event
}.

Definition with_fds (t : fd_table) (s : shell) : shell :=
  {| sh_fds := t; read_fd := read_fd s; write_fd := write_fd s;
     pipe_index := pipe_index s; pipes_made := pipes_made s;
     spawned := spawned s; unreaped := unreaped s; sh_log := sh_log s |}.

Definition say (e : event) (s : shell) : shell :=
  {| sh_fds := sh_fds s; read_fd := read_fd s; write_fd := write_fd s;
     pipe_index := pipe_index s; pipes_made := pipes_made s;
     spawned := spawned s; unreaped := unreaped s; sh_log := sh_log s ++ [e] |}.

(** [pipe(fds)] succeeded; [read_fd = fds[0]; write_fd = fds[1];] *)
Definition open_pipe (s : shell) : shell :=
  let '(r, w, t) := sys_pipe (pipes_made s) (sh_fds s) in
  {| sh_fds := t; read_fd := r; write_fd := w;
     pipe_index := pipe_index s; pipes_made := S (pipes_made s);
     spawned := spawned s; unreaped := unreaped s; sh_log := sh_log s |}.

(** [fork] succeeded: the child starts with a copy of the descriptor
    table.  In the child, stage 0 reads descriptor 0 and writes [write_fd];
    a later stage reads [prev_read_fd] and writes [write_fd], or 1 when it
    is stage [num_pipes]. *)
Definition forked (num_pipes prev_read_fd : nat) (token : string) (s : shell) : shell :=
  let c :=
    if decide (pipe_index s = 0) then
      {| stage_index := pipe_index s; arg_str := token; inherited := sh_fds s;
         given_read_fd := 0; given_write_fd := write_fd s |}
    else
      {| stage_index := pipe_index s; arg_str := token; inherited := sh_fds s;
         given_read_fd := prev_read_fd;
         given_write_fd := if decide (pipe_index s = num_pipes) then 1 else write_fd s |} in
  {| sh_fds := sh_fds s; read_fd := read_fd s; write_fd := write_fd s;
     pipe_index := pipe_index s; pipes_made := pipes_made s;
     spawned := spawned s ++ [c]; unreaped := S (unreaped s); sh_log := sh_log s |}.

(** [pipe_index++] *)
Definition next_stage (s : shell) : shell :=
  {| sh_fds := sh_fds s; read_fd := read_fd s; write_fd := write_fd s;
     pipe_index := S (pipe_index s); pipes_made := pipes_made s;
     spawned := spawned s; unreaped := unreaped s; sh_log := sh_log s |}.

(** How one iteration of the stage loop leaves it. *)
Inductive flow : Type :=
| Continue
| Break
| Exit (status : Z).

(** The parent's branch after [fork]: close the write end of the new pipe,
    close the read end of the previous one. *)
Definition parent_closes (num_pipes prev_read_fd : nat) (s : shell) : flow * shell :=
  if decide (0 < num_pipes) then
    match
      (if decide (pipe_index s < num_pipes) then sys_close (write_fd s) (sh_fds s)
       else Some (sh_fds s))
    with
    | None => (Break, say (Perror "close") s)
    | Some t1 =>
        match
          (if decide (pipe_index s ≠ 0) then sys_close prev_read_fd t1 else Some t1)
        with
        | None => (Break, say (Perror "close") (with_fds t1 s))
        | Some t2 => (Continue, next_stage (with_fds t2 s))
        end
    end
  else (Continue, next_stage s).

(** The body of [while (token != NULL)] in [main] for one segment. *)
Definition stage (env : environment) (num_pipes : nat) (token : string) (s : shell)
    : flow * shell :=
  if streq token (line "exit") then (Exit 0, s)
  else if streq token (line "") then (Break, s)
  else
    let prev_read_fd := read_fd s in
    match
      (if decide (pipe_index s < num_pipes) then
         if pipe_ok env (pipe_index s) then Some (open_pipe s) else None
       else Some s)
    with
    | None => (Break, say (Perror "pipe") s)
    | Some s1 =>
        if fork_ok env (pipe_index s) then
          parent_closes num_pipes prev_read_fd (forked num_pipes prev_read_fd token s1)
        else (Exit 1, say (Perror "fork") s1)
    end.

(** The stage loop over the segments that [strtok(input_buf, "|")],
    [strtok(NULL, "|")], ... deliver.  Running out of segments is
    [Continue]. *)
Fixpoint stage_loop (env : environment) (num_pipes : nat) (segments : list string)
    (s : shell) : flow * shell :=
  match segments with
  | [] => (Continue, s)
  | token :: rest =>
      match stage env num_pipes token s with
      | (Continue, s') => stage_loop env num_pipes rest s'
      | stopped => stopped
      end
  end.

(** [wait(NULL)]: reaps one child when there is one, fails at once when
    there is none. *)
Definition wait (s : shell) : shell :=
  {| sh_fds := sh_fds s; read_fd := read_fd s; write_fd := write_fd s;
     pipe_index := pipe_index s; pipes_made := pipes_made s;
     spawned := spawned s; unreaped := pred (unreaped s); sh_log := sh_log s ++ [Wait] |}.

Definition print_prompt (s : shell) : shell := say Prompt s.

(** [write_fd = 1; read_fd = 0; ... pipe_index = 0;] at the top of the read
    loop. *)
Definition reset (s : shell) : shell :=
  {| sh_fds := sh_fds s; read_fd := 0; write_fd := 1;
     pipe_index := 0; pipes_made := pipes_made s;
     spawned := spawned s; unreaped := unreaped s; sh_log := sh_log s |}.

(** One turn of [while (fgets(input_buf, ...) != NULL)]: [None] when the
    shell goes on to read the next line, the exit status otherwise. *)
Definition read_eval (env : environment) (input_buf : string) (s : shell)
    : option Z * shell :=
  let num_pipes := count_pipes (c_str input_buf) in
  match stage_loop env num_pipes (tokens bar (c_str input_buf)) (reset s) with
  | (Exit status, s') => (Some status, s')
  | (_, s') => (None, print_prompt (Nat.iter (num_pipes + 1) wait s'))
  end.

(** The shell as [main] starts it, after the first prompt. *)
Definition boot : shell :=
  {| sh_fds := std_fds; read_fd := 0; write_fd := 1; pipe_index := 0;
     pipes_made := 0; spawned := []; unreaped := 0; sh_log := [Prompt] |}.

(** What a spawned child does, on file system [fs]. *)
Definition run_child (env : environment) (fs : file_system)
    (junk : list (option string)) (c : spawn) : ending * process :=
  process_args env (arg_str c) (given_read_fd c) (given_write_fd c)
               (enter (inherited c) fs junk).

(** The descriptors of a table that refer to an end of a pipe. *)
Definition is_pipe_end (obj : file_object) : bool :=
  match obj with
  | PipeRead _ | PipeWrite _ => true
  | _ => false
  end.

Definition pipe_ends (t : fd_table) : fd_table :=
  filter (λ kv, is_pipe_end kv.2 = true) t.

(** Between two stages of a line the shell holds, beyond the table [base]
    it began the line with, the read end the next stage is to read and
    nothing else; before stage 0 and after stage [num_pipes] it holds
    [base] itself. *)
Definition between_stages (base : fd_table) (num_pipes : nat) (s : shell) : Prop :=
  if decide (pipe_index s = 0 ∨ num_pipes < pipe_index s) then sh_fds s = base
  else base !! read_fd s = None ∧ ∃ obj, sh_fds s = <[read_fd s := obj]> base.

(** The segments for which [main] runs a stage. *)
Definition runs_a_stage (token : string) : Prop :=
  token ≠ line "exit" ∧ token ≠ line "".

(** Every [pipe] and every [fork] of a line of [num_pipes + 1] stages
    succeeds: a [pipe] for each stage but the last, a [fork] for each. *)
Definition no_failure (env : environment) (num_pipes : nat) : Prop :=
  (∀ k, k < num_pipes → pipe_ok env k = true)
  ∧ (∀ k, k ≤ num_pipes → fork_ok env k = true).

(** An environment in which every [pipe], [fork], [open] and [execvp]
    succeeds, and a stack that happens to hold NULLs. *)
Definition obliging : environment :=
  {| pipe_ok := λ _, true; fork_ok := λ _, true;
     open_denied := λ _, false; exec_ok := λ _, true |}.

Definition blank_stack : list (option string) := replicate MAX_ARGS None.

(** The state in which a step of the child leaves it, however it ends. *)
Definition after {A} (r : result A) : process :=
  match r with
  | Returns _ p => p
  | Stops _ p => p
  end.

(** ** Further definitions: the argument vector, the read loop, lines *)

(** Whether a character occurs in a string. *)
Fixpoint occurs (c : ascii) (s : string) : bool :=
  match s with
  | EmptyString => false
  | String c' rest => Ascii.eqb c' c || occurs c rest
  end.

(** The tokens [process_args] treats as redirection operators. *)
Definition is_operator (token : string) : bool :=
  streq token "<" || streq token ">" || streq token ">>".

(** The tokens of a segment that are meant for the program: every token
    but the redirection operators and the file name after each. *)
Fixpoint arguments (toks : list string) : list string :=
  match toks with
  | [] => []
  | token :: rest =>
      if is_operator token then
        match rest with
        | [] => []
        | _ :: rest' => arguments rest'
        end
      else token :: arguments rest
  end.

(** A token that is neither an operator nor [exit] with the terminator. *)
Definition plain (token : string) : Prop :=
  is_operator token = false ∧ token ≠ line "exit".

(** [main]: the read loop over the lines [fgets] delivers, each with the
    environment it is run in, after the first prompt.  When [fgets] returns
    NULL the shell returns 0. *)
Fixpoint read_loop (script : list (environment * string)) (s : shell) : Z * shell :=
  match script with
  | [] => (0%Z, s)
  | (env, input_buf) :: rest =>
      match read_eval env input_buf s with
      | (Some status, s') => (status, s')
      | (None, s') => read_loop rest s'
      end
  end.

Definition main (script : list (environment * string)) : Z * shell :=
  read_loop script boot.

(** What the shell's table can be during a line, [base] being the table
    at the start of the line: [base] itself before stage 0 and after stage
    [num_pipes]; in between, [base] and the read end the next stage is to
    read.  After stage [num_pipes], [read_fd] names a descriptor that is
    closed. *)
Definition during_line (base : fd_table) (num_pipes : nat) (s : shell) : Prop :=
  if decide (pipe_index s = 0) then sh_fds s = base
  else if decide (pipe_index s ≤ num_pipes) then
    base !! read_fd s = None
    ∧ ∃ id, sh_fds s = <[read_fd s := PipeRead id]> base
  else sh_fds s = base ∧ (0 < num_pipes → base !! read_fd s = None).

(** The shell's table at the end of a line: the one before the line, or
    that and one read end of a pipe. *)
Definition at_most_one_read_end (base t : fd_table) : Prop :=
  t = base ∨ ∃ fd id, base !! fd = None ∧ t = <[fd := PipeRead id]> base.

(** How a child of a pipeline is wired, [base] being the shell's table at
    the start of the line and [first] the number of the first pipe of the
    line: stage [i] is given the read end of pipe [i - 1], or descriptor 0
    when it is stage 0, and the write end of pipe [i], or descriptor 1 when
    it is the last stage, stage [num_pipes]; descriptors 0 and 1 are still
    the shell's. *)
Definition wired (base : fd_table) (first num_pipes : nat) (c : spawn) : Prop :=
  (if decide (stage_index c = 0) then given_read_fd c = 0
   else inherited c !! given_read_fd c = Some (PipeRead (first + stage_index c - 1))
        ∧ 1 < given_read_fd c)
  ∧ (if decide (stage_index c = num_pipes) then given_write_fd c = 1
     else inherited c !! given_write_fd c = Some (PipeWrite (first + stage_index c))
          ∧ 1 < given_write_fd c)
  ∧ given_read_fd c ≠ given_write_fd c
  ∧ inherited c !! 0 = base !! 0 ∧ inherited c !! 1 = base !! 1.

(** The invariant behind [wired]: before stage [i] of a line whose pipes
    are numbered from [first], [i] pipes have been made; [write_fd] is
    still 1 before stage 0, and before a later stage the shell holds
    [base] and the read end of pipe [i - 1] on [read_fd]. *)
Definition before_stage (base : fd_table) (first num_pipes : nat) (s : shell) : Prop :=
  pipes_made s = first + pipe_index s
  ∧ if decide (pipe_index s = 0) then sh_fds s = base ∧ write_fd s = 1
    else base !! read_fd s = None
         ∧ sh_fds s = <[read_fd s := PipeRead (first + pipe_index s - 1)]> base.

(** The argument buffer while the token loop runs: [MAX_ARGS] slots, of
    which the first [args_buf_index] hold the arguments kept so far. *)
Definition buffered (kept : list string) (p : process) : Prop :=
  args_buf_index p = length kept
  ∧ take (length kept) (opt_args_buf p) = Some <$> kept
  ∧ length (opt_args_buf p) = MAX_ARGS.

(** What a child reports before it exits with a status other than 0. *)
Definition reported (status : Z) (what : string) : Prop :=
  (status = 1%Z ∧ (what = "open" ∨ what = "close"))
  ∨ (status = 2%Z ∧ what = "dup2")
  ∨ (status = 3%Z ∧ what = "execvp").

(** A child that exits has status 0 or has just reported why. *)
Definition accounted (e : ending) (p : process) : Prop :=
  match e with
  | Exited status =>
      status = 0%Z ∨ ∃ what, reported status what ∧ last (log p) = Some (Perror what)
  | _ => True
  end.

Definition not_exec (e : ending) : Prop :=
  match e with
  | Execed _ _ => False
  | _ => True
  end.

(** An environment in which [execvp] finds no program. *)
Definition nothing_to_exec : environment :=
  {| pipe_ok := λ _, true; fork_ok := λ _, true;
     open_denied := λ _, false; exec_ok := λ _, false |}.

(** After stage 0 of a line with pipes, [write_fd] names a descriptor that
    is not open in the table the line began with. *)
Definition write_end_closed (base : fd_table) (num_pipes : nat) (s : shell) : Prop :=
  pipe_index s ≠ 0 → 0 < num_pipes → base !! write_fd s = None.

(** * Theory *)

(** ** The model at work *)

Example tokens_of_a_pipeline :
  tokens bar (line "ls -l | wc") = ["ls -l "; line " wc"].
Proof. reflexivity. Qed.

Example tokens_of_a_stage :
  tokens space (line " sort -r < in.txt") = ["sort"; "-r"; "<"; line "in.txt"].
Proof. reflexivity. Qed.

Example count_pipes_spaced : count_pipes (line "a | b | c") = 2.
Proof. reflexivity. Qed.

Example count_pipes_unspaced : count_pipes (line "a|b |c") = 0.
Proof. reflexivity. Qed.

Example chomp_last_token : chomp (line "in.txt") = "in.txt".
Proof. reflexivity. Qed.

Example pipe_takes_lowest_descriptors :
  (sys_pipe 0 std_fds).1 = (3, 4).
Proof. reflexivity. Qed.

(** [echo hello | tr a-z A-Z]: two stages, the first writing the pipe, the
    second reading it and writing the shell's standard output. *)
Example echo_tr :
  let done := (read_eval obliging (line "echo hello | tr a-z A-Z") boot).2 in
  let run := run_child obliging ∅ blank_stack in
  (fst ∘ run) <$> spawned done
    = [Execed "echo" ["echo"; "hello"]; Execed "tr" ["tr"; "a-z"; "A-Z"]]
  ∧ (λ c, fds (run c).2 !! 1) <$> spawned done
    = [Some (PipeWrite 0); Some (Inherited 1)]
  ∧ (λ c, fds (run c).2 !! 0) <$> spawned done
    = [Some (Inherited 0); Some (PipeRead 0)]
  ∧ sh_log done = [Prompt; Wait; Wait; Prompt].
Proof. by vm_compute. Qed.

(** A missing input file ends its own stage with status 1. *)
Example missing_input_file :
  (fst ∘ run_child obliging ∅ blank_stack)
    <$> spawned (read_eval obliging (line "cat < nofile | wc") boot).2
  = [Exited 1; Execed "wc" ["wc"]].
Proof. by vm_compute. Qed.

(** ** The kernel model *)

Section LowestFree.
Context (t : fd_table).

Lemma lowest_free_from_spec fuel n :
  t !! lowest_free_from t fuel n = None
  ∨ (lowest_free_from t fuel n = n + fuel ∧ ∀ k, n ≤ k < n + fuel → is_Some (t !! k)).
Proof.
  revert n. induction fuel as [|fuel IH]; intros n; simpl.
  - right. split; [lia|]. intros k Hk. lia.
  - destruct (t !! n) eqn:Hn; [|by left].
    destruct (IH (S n)) as [Hfree|[Heq Hall]]; [by left|].
    right. split; [lia|]. intros k Hk.
    destruct (decide (k = n)) as [->|Hne]; [by rewrite Hn|].
    apply Hall. lia.
Qed.

(** The descriptor the kernel hands out is not open. *)
Lemma lowest_free_fresh : t !! lowest_free t = None.
Proof.
  unfold lowest_free.
  destruct (lowest_free_from_spec (size t) 0) as [Hfree|[Heq Hall]]; [done|].
  rewrite Heq. simpl.
  assert (Hsub : set_seq (C:=gset nat) 0 (size t) ⊆ dom t).
  { intros k Hk. apply elem_of_set_seq in Hk. apply elem_of_dom. apply Hall. lia. }
  apply set_subseteq_size_eq in Hsub.
  - apply not_elem_of_dom. rewrite <- Hsub. rewrite elem_of_set_seq. lia.
  - rewrite size_set_seq, size_dom. done.
Qed.

End LowestFree.

(** ** The stage loop *)

Lemma streq_true a b : streq a b = true ↔ a = b.
Proof. apply String.eqb_eq. Qed.

Lemma streq_false a b : streq a b = false ↔ a ≠ b.
Proof. apply String.eqb_neq. Qed.

Section StageLoop.
Context (env : environment) (num_pipes : nat).

Lemma spawned_open_pipe s : spawned (open_pipe s) = spawned s.
Proof. unfold open_pipe. by destruct (sys_pipe _ _) as [[r w] t]. Qed.

Lemma pipe_index_open_pipe s : pipe_index (open_pipe s) = pipe_index s.
Proof. unfold open_pipe. by destruct (sys_pipe _ _) as [[r w] t]. Qed.

Lemma spawned_parent_closes prev s :
  spawned (parent_closes num_pipes prev s).2 = spawned s.
Proof.
  unfold parent_closes.
  repeat (case_decide || case_match); simplify_eq; done.
Qed.

(** A segment that is neither [exit] nor the bare terminator is forked as
    soon as [pipe] (when one is due) and [fork] succeed: [main] looks at
    nothing else in it. *)
Lemma stage_forks token s :
  token ≠ line "exit" → token ≠ line "" →
  (pipe_index s < num_pipes → pipe_ok env (pipe_index s) = true) →
  fork_ok env (pipe_index s) = true →
  ∃ c, spawned (stage env num_pipes token s).2 = spawned s ++ [c]
       ∧ arg_str c = token ∧ stage_index c = pipe_index s.
Proof.
  intros Hexit Hnl Hpipe Hfork. unfold stage.
  apply streq_false in Hexit, Hnl. rewrite Hexit, Hnl.
  destruct (decide (pipe_index s < num_pipes)) as [Hlt|Hge].
  - rewrite (Hpipe Hlt), Hfork, spawned_parent_closes.
    unfold forked; simpl. rewrite ?spawned_open_pipe, ?pipe_index_open_pipe.
    eexists; split; [done|]. by case_decide.
  - rewrite Hfork, spawned_parent_closes. unfold forked; simpl.
    eexists; split; [done|]. by case_decide.
Qed.

(** Children once spawned stay on the list. *)
Lemma stage_spawned_prefix token s :
  spawned s `prefix_of` spawned (stage env num_pipes token s).2.
Proof.
  unfold stage. repeat case_match; simplify_eq; simpl; try done;
    rewrite ?spawned_parent_closes; unfold forked; simpl;
    rewrite ?spawned_open_pipe; by apply prefix_app_r.
Qed.

Lemma stage_loop_spawned_prefix segments s :
  spawned s `prefix_of` spawned (stage_loop env num_pipes segments s).2.
Proof.
  revert s. induction segments as [|token rest IH]; intros s; simpl; [done|].
  pose proof (stage_spawned_prefix token s) as Hstep.
  destruct (stage env num_pipes token s) as [[| |status] s']; simpl in *; [|done..].
  by etrans; [|apply IH].
Qed.

(** The loop over a line cut in two: the second part runs from where the
    first part arrives, when the first part runs through. *)
Lemma stage_loop_app pre rest s :
  stage_loop env num_pipes (pre ++ rest) s =
  match stage_loop env num_pipes pre s with
  | (Continue, s') => stage_loop env num_pipes rest s'
  | stopped => stopped
  end.
Proof.
  revert s. induction pre as [|token pre IH]; intros s; simpl.
  - by destruct (stage_loop env num_pipes rest s) as [[] ?].
  - destruct (stage env num_pipes token s) as [[| |status] s']; [apply IH|done..].
Qed.

(** Every segment the loop runs through costs one [fork]. *)
Lemma stage_continue_spawns token s s' :
  stage env num_pipes token s = (Continue, s') →
  length (spawned s') = S (length (spawned s)) ∧ pipe_index s' = S (pipe_index s).
Proof.
  unfold stage, parent_closes. intros H.
  repeat (case_decide || case_match); simplify_eq; simpl;
    rewrite ?spawned_open_pipe, ?pipe_index_open_pipe, ?length_app; simpl; lia.
Qed.

Lemma stage_loop_continue_spawns segments s s' :
  stage_loop env num_pipes segments s = (Continue, s') →
  length (spawned s') = length (spawned s) + length segments
  ∧ pipe_index s' = pipe_index s + length segments.
Proof.
  revert s. induction segments as [|token rest IH]; intros s; simpl.
  - intros [= <-]. lia.
  - destruct (stage env num_pipes token s) as [[| |status] s1] eqn:Hstage; [|done..].
    intros Hrest. apply stage_continue_spawns in Hstage. apply IH in Hrest. lia.
Qed.

End StageLoop.

(** ** Descriptors of the shell across a line *)

Section Descriptors.
Context (env : environment) (num_pipes : nat) (base : fd_table).

Lemma close_new_write_end (t : fd_table) r w (o1 o2 : file_object) :
  <[r := o1]> t !! w = None →
  sys_close w (<[w := o2]> (<[r := o1]> t)) = Some (<[r := o1]> t).
Proof.
  intros Hw. unfold sys_close. rewrite lookup_insert_eq.
  by rewrite delete_insert_id.
Qed.

Lemma close_prev_read_end r0 r (o0 o1 : file_object) :
  base !! r0 = None → <[r0 := o0]> base !! r = None →
  sys_close r0 (<[r := o1]> (<[r0 := o0]> base)) = Some (<[r := o1]> base)
  ∧ base !! r = None.
Proof.
  intros H0 Hr. apply lookup_insert_None in Hr as [Hr Hne].
  unfold sys_close. rewrite lookup_insert_ne, lookup_insert_eq by done.
  split; [|done]. f_equal.
  rewrite delete_insert_ne, delete_insert_id by done. done.
Qed.

Lemma stage_between_stages token s :
  between_stages base num_pipes s → pipe_index s ≤ num_pipes →
  runs_a_stage token →
  (pipe_index s < num_pipes → pipe_ok env (pipe_index s) = true) →
  fork_ok env (pipe_index s) = true →
  ∃ s', stage env num_pipes token s = (Continue, s')
        ∧ between_stages base num_pipes s'
        ∧ pipe_index s' = S (pipe_index s)
        ∧ pipes_made s' =
            pipes_made s + (if decide (pipe_index s < num_pipes) then 1 else 0).
Proof.
  intros Hinv Hle [Hexit Hnl] Hpipe Hfork. unfold stage.
  apply streq_false in Hexit, Hnl. rewrite Hexit, Hnl, Hfork.
  unfold between_stages in *.
  destruct (decide (pipe_index s < num_pipes)) as [Hlt|Hge].
  - rewrite (Hpipe Hlt).
    (* a pipe is made; its write end is closed again, and so is the read
       end of the pipe before *)
    unfold parent_closes, forked, open_pipe, sys_pipe; simpl.
    rewrite decide_True by lia. rewrite (decide_True (P := _ < _)) by done.
    set (r := lowest_free (sh_fds s)).
    set (w := lowest_free (<[r := PipeRead (pipes_made s)]> (sh_fds s))).
    pose proof (lowest_free_fresh (sh_fds s)) as Hr. fold r in Hr.
    pose proof (lowest_free_fresh (<[r := PipeRead (pipes_made s)]> (sh_fds s))) as Hw.
    fold w in Hw. rewrite close_new_write_end by done.
    destruct (decide (pipe_index s = 0)) as [Hz|Hnz].
    + rewrite decide_True in Hinv by auto. rewrite decide_False by lia.
      eexists; split; [done|]; simpl.
      rewrite decide_False by lia. rewrite Hinv in *. repeat split; eauto; lia.
    + rewrite decide_False in Hinv by lia. destruct Hinv as [H0 [obj Ht]].
      rewrite decide_True by done. rewrite Ht in Hr |- *.
      destruct (close_prev_read_end _ _ obj (PipeRead (pipes_made s)) H0 Hr) as [-> Hbase].
      eexists; split; [done|]; simpl.
      rewrite decide_False by lia. repeat split; eauto; lia.
  - (* the last stage: only the read end of the pipe before is closed *)
    assert (pipe_index s = num_pipes) as Hlast by lia.
    unfold parent_closes, forked; simpl.
    destruct (decide (0 < num_pipes)) as [Hpos|Hnone].
    + rewrite (decide_False (P := _ < _)) by done. rewrite decide_True by lia.
      rewrite decide_False in Hinv by lia. destruct Hinv as [H0 [obj Ht]].
      unfold sys_close. rewrite Ht, lookup_insert_eq, delete_insert_id by done.
      eexists; split; [done|]; simpl.
      rewrite decide_True by lia. repeat split; lia.
    + rewrite decide_True in Hinv by lia.
      eexists; split; [done|]; simpl.
      rewrite decide_True by lia. repeat split; [done|lia..].
Qed.

Lemma stage_loop_between_stages segments s :
  between_stages base num_pipes s →
  pipe_index s + length segments = S num_pipes →
  Forall runs_a_stage segments →
  no_failure env num_pipes →
  ∃ s', stage_loop env num_pipes segments s = (Continue, s')
        ∧ sh_fds s' = base
        ∧ pipes_made s' = pipes_made s + (num_pipes - pipe_index s).
Proof.
  revert s. induction segments as [|token rest IH]; intros s Hinv Hlen Hrun Hok; simpl in *.
  - exists s. unfold between_stages in Hinv. rewrite decide_True in Hinv by lia.
    repeat split; [done|lia].
  - apply Forall_cons in Hrun as [Htok Hrest].
    destruct Hok as [Hpipe Hfork].
    destruct (stage_between_stages token s Hinv ltac:(lia) Htok
                (Hpipe (pipe_index s)) (Hfork (pipe_index s) ltac:(lia)))
      as (s1 & -> & Hinv1 & Hidx & Hmade).
    destruct (IH s1) as (s' & -> & Hfds & Hmade'); try done; try lia.
    exists s'. repeat split; [done|]. rewrite Hmade', Hmade, Hidx.
    case_decide; lia.
Qed.

End Descriptors.

(** ** Whole lines *)

Lemma waits_keep n s :
  sh_fds (Nat.iter n wait s) = sh_fds s
  ∧ pipes_made (Nat.iter n wait s) = pipes_made s
  ∧ spawned (Nat.iter n wait s) = spawned s.
Proof. induction n as [|n IH]; simpl; [done|]. apply IH. Qed.

Lemma obliging_no_failure n : no_failure obliging n.
Proof. by split. Qed.

(** X20.  On a line whose [n] segments are all run as stages and whose
    pipe operators [count_pipes] counts as [n - 1] (each one a token of its
    own between spaces), with [pipe] and [fork] succeeding, the shell makes
    exactly [n - 1] pipes, forks [n] children, and when the line is done
    its descriptor table is the one it had before the line: no end of any
    pipe is left open in it. *)
Theorem pipes_made_and_none_kept env input s :
  let segments := tokens bar (c_str input) in
  length segments = S (count_pipes (c_str input)) →
  Forall runs_a_stage segments →
  no_failure env (count_pipes (c_str input)) →
  ∃ s', read_eval env input s = (None, s')
        ∧ pipes_made s' = pipes_made s + (length segments - 1)
        ∧ length (spawned s') = length (spawned s) + length segments
        ∧ sh_fds s' = sh_fds s.
Proof.
  intros segments Hlen Hrun Hok. unfold read_eval. fold segments.
  set (num_pipes := count_pipes (c_str input)) in *.
  assert (between_stages (sh_fds s) num_pipes (reset s)) as Hinv.
  { unfold between_stages. rewrite decide_True; [done|by left]. }
  destruct (stage_loop_between_stages env num_pipes (sh_fds s) segments (reset s)
              Hinv Hlen Hrun Hok) as (s1 & Hloop & Hfds & Hmade).
  rewrite Hloop. eexists; split; [done|].
  apply stage_loop_continue_spawns in Hloop as [Hsp _].
  unfold print_prompt; simpl.
  destruct (waits_keep (num_pipes + 1) s1) as (-> & -> & ->).
  simpl in *. repeat split; [lia|done..].
Qed.

Lemma pipes_made_and_none_kept_witness :
  ∃ s', read_eval obliging (line "a | b | c") boot = (None, s')
        ∧ pipes_made s' = 2 ∧ length (spawned s') = 3 ∧ sh_fds s' = std_fds.
Proof.
  apply (pipes_made_and_none_kept obliging (line "a | b | c") boot).
  - reflexivity.
  - repeat constructor; by vm_compute.
  - apply obliging_no_failure.
Defined.

(** C2 at ["a|b"] and at ["| a"]: [main] splits the line at every ['|']
    while [count_pipes] counts only the tokens ["|"] between spaces.  On
    ["a|b"] two stages are forked, no pipe is made, and after the one
    [wait] a child is left that is never waited for.  On ["| a"] one stage
    is forked, one pipe is made, and the shell keeps the read end of the
    pipe on descriptor 3; a second such line leaves it another, on
    descriptor 4. *)
Theorem C2_count_and_split_disagree :
  let s1 := (read_eval obliging (line "a|b") boot).2 in
  let s2 := (read_eval obliging (line "| a") boot).2 in
  let s3 := (main [(obliging, line "| a"); (obliging, line "| a")]).2 in
  (count_pipes (line "a|b") = 0
   ∧ length (tokens bar (line "a|b")) = 2
   ∧ length (spawned s1) = 2 ∧ pipes_made s1 = 0 ∧ unreaped s1 = 1)
  ∧ (count_pipes (line "| a") = 1
     ∧ length (tokens bar (line "| a")) = 1
     ∧ length (spawned s2) = 1 ∧ pipes_made s2 = 1
     ∧ pipe_ends (sh_fds s2) = {[ 3 := PipeRead 0 ]})
  ∧ pipe_ends (sh_fds s3) = {[ 3 := PipeRead 0; 4 := PipeRead 1 ]}.
Proof. by vm_compute. Qed.

(** ** [strtok] *)

Section Strtok.
Context (d : ascii).

Lemma skip_delims_head s :
  skip_delims d s = EmptyString
  ∨ ∃ c rest, skip_delims d s = String c rest ∧ Ascii.eqb c d = false.
Proof.
  induction s as [|c rest IH]; simpl; [by left|].
  destruct (Ascii.eqb c d) eqn:Hc; [done|]. right. eauto.
Qed.

Lemma skip_delims_length s : String.length (skip_delims d s) ≤ String.length s.
Proof.
  induction s as [|c rest IH]; simpl; [done|].
  destruct (Ascii.eqb c d); simpl; lia.
Qed.

Lemma take_token_length s : String.length (take_token d s).2 ≤ String.length s.
Proof.
  induction s as [|c rest IH]; simpl; [done|].
  destruct (Ascii.eqb c d); simpl; [lia|].
  destruct (take_token d rest) as [tok after]; simpl in *. lia.
Qed.

(** A token is never empty, and every call consumes text. *)
Lemma strtok_Some s tok after :
  strtok d s = Some (tok, after) →
  tok ≠ EmptyString ∧ String.length after < String.length s.
Proof.
  unfold strtok. pose proof (skip_delims_length s) as Hlen.
  destruct (skip_delims_head s) as [->|(c & rest & Hskip & Hc)]; [done|].
  rewrite Hskip in *. simpl. rewrite Hc.
  pose proof (take_token_length rest) as Hrest.
  destruct (take_token d rest) as [tok' after']; simpl in *.
  intros [= <- <-]. split; [done|lia].
Qed.

(** The fuel given to [strtok_seq] by [tokens] never runs out. *)
Lemma strtok_seq_fuel n m s :
  String.length s ≤ n → String.length s ≤ m → strtok_seq n d s = strtok_seq m d s.
Proof.
  revert m s. induction n as [|n IH]; intros [|m] s Hn Hm; simpl; try done.
  - destruct s; simpl in *; [done|lia].
  - destruct s; simpl in *; [done|lia].
  - destruct (strtok d s) as [[tok after]|] eqn:Htok; [|done].
    apply strtok_Some in Htok as [_ Hlt]. f_equal. apply IH; lia.
Qed.

Lemma tokens_unfold s :
  tokens d s =
  match strtok d s with
  | None => []
  | Some (tok, after) => tok :: tokens d after
  end.
Proof.
  unfold tokens. destruct s as [|c rest]; [done|].
  change (String.length (String c rest)) with (S (String.length rest)).
  simpl strtok_seq.
  destruct (strtok d (String c rest)) as [[tok after]|] eqn:Htok; [|done].
  apply strtok_Some in Htok as [_ Hlt]. simpl in Hlt.
  f_equal. apply strtok_seq_fuel; lia.
Qed.

Lemma tokens_nonempty s : Forall (λ tok, tok ≠ EmptyString) (tokens d s).
Proof.
  remember (String.length s) as n eqn:Hn. revert s Hn.
  induction n as [n IH] using lt_wf_ind. intros s ->.
  rewrite tokens_unfold.
  destruct (strtok d s) as [[tok after]|] eqn:Htok; [|done].
  apply strtok_Some in Htok as [Hne Hlt].
  constructor; [done|]. by eapply IH.
Qed.

Lemma tokens_leading_delim s : tokens d (String d s) = tokens d s.
Proof.
  rewrite (tokens_unfold (String d s)), (tokens_unfold s).
  unfold strtok. simpl. by rewrite Ascii.eqb_refl.
Qed.

Lemma append_empty (x : string) : EmptyString +:+ x = x.
Proof. reflexivity. Qed.

Lemma append_String c (a x : string) : String c a +:+ x = String c (a +:+ x).
Proof. reflexivity. Qed.

(** Two delimiters in a row separate tokens as one does. *)
Lemma tokens_double_delim a b :
  tokens d (a +:+ String d (String d b)) = tokens d (a +:+ String d b).
Proof.
  cut (tokens d (a +:+ String d (String d b)) = tokens d (a +:+ String d b)
       ∧ ∃ tok after1 after2,
           take_token d (a +:+ String d (String d b)) = (tok, after1)
           ∧ take_token d (a +:+ String d b) = (tok, after2)
           ∧ tokens d after1 = tokens d after2).
  { by intros [? _]. }
  induction a as [|c a [IHtok (tok & after1 & after2 & H1 & H2 & Hafter)]];
    rewrite ?append_empty, ?append_String; cbn [take_token].
  - rewrite !tokens_leading_delim, Ascii.eqb_refl.
    split; [done|]. eexists _, _, _. repeat split. apply tokens_leading_delim.
  - destruct (Ascii.eqb c d) eqn:Hc.
    + apply Ascii.eqb_eq in Hc as ->. rewrite !tokens_leading_delim.
      split; [done|]. by eexists _, _, _.
    + split; [|rewrite H1, H2; by eexists _, _, _].
      rewrite (tokens_unfold (String c _)), (tokens_unfold (String c (a +:+ String d b))).
      unfold strtok. simpl. rewrite Hc, H1, H2, Hc. by f_equal.
Qed.

End Strtok.

(** ** What [main] looks at in a segment *)

Lemma read_eval_spawned env input s :
  spawned (read_eval env input s).2 =
  spawned (stage_loop env (count_pipes (c_str input)) (tokens bar (c_str input)) (reset s)).2.
Proof.
  unfold read_eval.
  destruct (stage_loop _ _ _ _) as [[| |status] s']; simpl; try done;
    by destruct (waits_keep (count_pipes (c_str input) + 1) s') as (_ & _ & ->).
Qed.

(** C3, as the code has it: when the stage loop arrives at a segment that
    is exactly [exit] followed by the line terminator, the shell exits with
    status 0, in the state in which it arrived: the segments before it on
    the line have each been forked, that segment and the ones after it
    are not. *)
Theorem C3_exit_segment env input s pre post s1 :
  tokens bar (c_str input) = pre ++ line "exit" :: post →
  stage_loop env (count_pipes (c_str input)) pre (reset s) = (Continue, s1) →
  read_eval env input s = (Some 0%Z, s1)
  ∧ length (spawned s1) = length (spawned s) + length pre.
Proof.
  intros Hsegs Hpre. unfold read_eval.
  rewrite Hsegs, stage_loop_app, Hpre. simpl. split; [done|].
  by apply stage_loop_continue_spawns in Hpre as [-> _].
Qed.

Lemma C3_exit_segment_witness :
  read_eval obliging (line "exit") boot = (Some 0%Z, reset boot)
  ∧ length (spawned (reset boot)) = 0.
Proof.
  apply (C3_exit_segment obliging (line "exit") boot [] []); reflexivity.
Defined.

(** On ["ls |exit"] the stage [ls] is forked before the shell exits; on
    ["exit|ls"] the shell does not exit and forks two stages. *)
Lemma C3_counterexample :
  let r1 := read_eval obliging (line "ls |exit") boot in
  let r2 := read_eval obliging (line "exit|ls") boot in
  (r1.1 = Some 0%Z ∧ arg_str <$> spawned r1.2 = ["ls "])
  ∧ (r2.1 = None ∧ arg_str <$> spawned r2.2 = ["exit"; line "ls"]).
Proof. by vm_compute. Qed.

(** C9, as the code has it: on the line that is the terminator alone the
    shell forks nothing, reports nothing, calls [wait] once and prints its
    prompt to read the next line. *)
Theorem C9_bare_terminator env s :
  read_eval env (line "") s = (None, print_prompt (wait (reset s)))
  ∧ spawned (print_prompt (wait (reset s))) = spawned s
  ∧ sh_log (print_prompt (wait (reset s))) = sh_log s ++ [Wait; Prompt]
  ∧ sh_fds (print_prompt (wait (reset s))) = sh_fds s.
Proof.
  repeat split; simpl. by rewrite <- app_assoc.
Qed.

(** A line of one space before the terminator is forked as a stage. *)
Lemma C9_counterexample :
  let r := read_eval obliging (line " ") boot in
  r.1 = None ∧ arg_str <$> spawned r.2 = [line " "].
Proof. by vm_compute. Qed.

(** C4 at a line of one stage with eleven tokens: the line is not
    refused, the stage is forked, and the child stores its eleventh token
    in [opt_args_buf[10]], past the end of the buffer of [MAX_ARGS] slots:
    no index is tested before the store. *)
Theorem C4_store_past_the_buffer :
  let r := read_eval obliging (line "p 1 2 3 4 5 6 7 8 9 10") boot in
  MAX_ARGS = 10
  ∧ r.1 = None
  ∧ sh_log r.2 = [Prompt; Wait; Prompt]
  ∧ length <$> (tokens space <$> (arg_str <$> spawned r.2)) = [11]
  ∧ (fst ∘ run_child obliging ∅ blank_stack) <$> spawned r.2
    = [Undefined (OutOfBounds 10)].
Proof. by vm_compute. Qed.

(** C6 at ["a | | b"] and at ["a || b"]: on the former the segment
    between the two operators holds a space and no token; it is forked as a
    stage all the same, [strtok] returns NULL for its program name and the
    child applies [strcspn] to it; the line is not refused and the shell
    reports nothing.  On the latter [strtok] takes the two operators as one
    separator: two stages are forked and the line is not refused. *)
Theorem C6_stage_without_program :
  let r1 := read_eval obliging (line "a | | b") boot in
  let r2 := read_eval obliging (line "a || b") boot in
  let run := run_child obliging ∅ blank_stack in
  (r1.1 = None
   ∧ arg_str <$> spawned r1.2 = ["a "; " "; line " b"]
   ∧ tokens space " " = []
   ∧ (fst ∘ run) <$> spawned r1.2
     = [Execed "a" ["a"]; Undefined NullDereference; Execed "b" ["b"]]
   ∧ sh_log r1.2 = [Prompt; Wait; Wait; Wait; Prompt])
  ∧ (r2.1 = None
     ∧ arg_str <$> spawned r2.2 = ["a "; line " b"]
     ∧ sh_log r2.2 = [Prompt; Wait; Prompt]).
Proof. by vm_compute. Qed.

(** ** The child *)

Section Child.
Context (env : environment).

(** The token loop over a segment cut in two: the second part is scanned
    from where the first part arrives, when the first part is scanned to
    its end. *)
Lemma scan_tokens_app pre rest p p1 :
  scan_tokens env pre p = Returns tt p1 →
  scan_tokens env (pre ++ rest) p = scan_tokens env rest p1.
Proof.
  remember (length pre) as n eqn:Hn. revert pre p Hn.
  induction n as [n IH] using lt_wf_ind. intros pre p -> Hpre.
  destruct pre as [|token pre]; [by injection Hpre as ->|].
  simpl in *. unfold exit, mbind, child_bind in *.
  destruct (streq token (line "exit")); [done|].
  destruct (streq token "<").
  { destruct pre as [|file pre]; simpl in *; [done|].
    destruct (redirect_input env (Some file) p) as [[] p'|]; [|done].
    eapply IH; [|done..]. simpl. lia. }
  destruct (streq token ">").
  { destruct pre as [|file pre]; simpl in *; [done|].
    destruct (redirect_output env (Some file) p) as [[] p'|]; [|done].
    eapply IH; [|done..]. simpl. lia. }
  destruct (streq token ">>").
  { destruct pre as [|file pre]; simpl in *; [done|].
    destruct (redirect_append env (Some file) p) as [[] p'|]; [|done].
    eapply IH; [|done..]. simpl. lia. }
  destruct (keep_argument token p) as [[] p'|]; [|done].
  eapply IH; [|done..]. simpl. lia.
Qed.

End Child.

(** C10, as the code has it: when the token loop of a child arrives at a
    token that is [exit] followed by the line terminator, the child exits
    with status 0 in the state in which it arrived there: it applies no
    redirection that follows and does not replace its image.  The loop
    arrives there when binding the pipe ends and scanning the tokens before
    it came to no end of their own. *)
Theorem C10_exit_token env arg r w p pre post p1 :
  tokens space arg = pre ++ line "exit" :: post →
  (bind_stdout w ;; bind_stdin r ;; scan_tokens env pre) p = Returns tt p1 →
  process_args env arg r w p = (Exited 0, p1).
Proof.
  intros Htoks Hpre. unfold process_args, process_args_body.
  rewrite Htoks. unfold mbind, child_bind in *.
  destruct (bind_stdout w p) as [[] p2|]; [|done].
  destruct (bind_stdin r p2) as [[] p3|]; [|done].
  rewrite (scan_tokens_app env pre _ p3 p1 Hpre). done.
Qed.

Lemma C10_exit_token_witness :
  process_args obliging (line "echo exit") 0 1 (enter std_fds ∅ blank_stack)
  = (Exited 0,
     {| fds := std_fds; files := ∅;
        opt_args_buf := <[0 := Some "echo"]> blank_stack;
        args_buf_index := 1; log := [] |}).
Proof.
  apply (C10_exit_token obliging (line "echo exit") 0 1 _ ["echo"] []); reflexivity.
Defined.

(** In ["echo > exit"] the token [exit] with its terminator is the file
    name of the redirection: the child makes the file and runs [echo]. *)
Lemma C10_counterexample :
  let r := process_args obliging (line "echo > exit") 0 1 (enter std_fds ∅ blank_stack) in
  tokens space (line "echo > exit") = ["echo"; ">"; line "exit"]
  ∧ r.1 = Execed "echo" ["echo"]
  ∧ files r.2 = {[ "exit" := "" ]}.
Proof. by vm_compute. Qed.

(** ** Redirections *)

Section Redirections.
Context (env : environment).

(** An [open] the kernel grants, followed by [dup2] onto [target] and the
    NULL store: what the child's state is afterwards. *)
Lemma open_then_dup2 path flags mode target p :
  open_denied env path = false →
  (files p !! path = None → has_flag flags O_CREAT = true) →
  let r := (fd ← open env path flags mode;
            match fd with
            | None => perror "open" ;; exit 1
            | Some fd => or_die (dup2 fd target) "dup2" 2 ;; store_arg None
            end) p in
  log (after r) = log p ++ [Open path flags mode]
  ∧ files (after r) =
      match files p !! path with
      | None => <[path := EmptyString]> (files p)
      | Some _ =>
          if has_flag flags O_TRUNC then <[path := EmptyString]> (files p) else files p
      end
  ∧ fds (after r) =
      <[target := OpenFile path flags]>
        (<[lowest_free (fds p) := OpenFile path flags]> (fds p)).
Proof.
  intros Hgranted Hcreat.
  unfold mbind, child_bind, open, sys_open, or_die, mbind, child_bind, dup2, sys_dup2,
    store_arg, mret, child_ret.
  rewrite Hgranted.
  destruct (files p !! path) as [content|] eqn:Hfile.
  - destruct (has_flag flags O_TRUNC); simpl; rewrite lookup_insert_eq; simpl;
      by case_decide.
  - rewrite Hcreat by done. simpl. rewrite lookup_insert_eq. simpl. by case_decide.
Qed.

End Redirections.

(** C7: the operator [>] opens its target write-only with O_CREAT and
    O_TRUNC and permission bits 0644, so that the file is there and empty
    afterwards, made if it was missing and emptied if it was not; the
    operator [>>] opens it write-only with O_CREAT and O_APPEND and bits
    0644, without O_TRUNC, so that a missing file is made and an existing
    one keeps its contents, and every write through it lands at the end of
    the file.  Either way the file is what the child's standard output then
    refers to.  (The effects are those of an [open] the kernel grants.) *)
Theorem C7_output_redirection_modes env file rest p :
  let path := chomp file in
  let truncating := Z.lor (Z.lor O_TRUNC O_CREAT) O_WRONLY in
  let appending := Z.lor (Z.lor O_APPEND O_CREAT) O_WRONLY in
  let p1 := after (redirect_output env (Some file) p) in
  let p2 := after (redirect_append env (Some file) p) in
  open_denied env path = false →
  (scan_tokens env (">" :: file :: rest)
     = (redirect_output env (Some file) ;; scan_tokens env rest)
   ∧ scan_tokens env (">>" :: file :: rest)
     = (redirect_append env (Some file) ;; scan_tokens env rest))
  ∧ (log p1 = log p ++ [Open path truncating (Some mode_0644)]
     ∧ mode_0644 = 420%Z
     ∧ Z.land truncating O_ACCMODE = O_WRONLY
     ∧ has_flag truncating O_CREAT = true
     ∧ has_flag truncating O_TRUNC = true
     ∧ files p1 = <[path := EmptyString]> (files p)
     ∧ fds p1 !! 1 = Some (OpenFile path truncating))
  ∧ (log p2 = log p ++ [Open path appending (Some mode_0644)]
     ∧ Z.land appending O_ACCMODE = O_WRONLY
     ∧ has_flag appending O_CREAT = true
     ∧ has_flag appending O_TRUNC = false
     ∧ has_flag appending O_APPEND = true
     ∧ files p2 !! path = Some (default EmptyString (files p !! path))
     ∧ (∀ other, other ≠ path → files p2 !! other = files p !! other)
     ∧ fds p2 !! 1 = Some (OpenFile path appending)
     ∧ ∀ pos content, write_offset appending pos content = String.length content).
Proof.
  intros path truncating appending p1 p2 Hgranted.
  split; [done|]. subst p1 p2. unfold redirect_output, redirect_append.
  fold path truncating appending. split.
  - destruct (open_then_dup2 env path truncating (Some mode_0644) 1 p Hgranted)
      as (Hlog & Hfiles & Hfds); [done|].
    rewrite Hlog, Hfiles, Hfds. repeat split; try done.
    + by destruct (files p !! path).
    + apply lookup_insert_eq.
  - destruct (open_then_dup2 env path appending (Some mode_0644) 1 p Hgranted)
      as (Hlog & Hfiles & Hfds); [done|].
    rewrite Hlog, Hfiles, Hfds. repeat split; try done.
    + destruct (files p !! path) eqn:Hfile; simpl; [done|]. apply lookup_insert_eq.
    + intros other Hother.
      destruct (files p !! path); simpl; [done|]. by apply lookup_insert_ne.
    + apply lookup_insert_eq.
Qed.

Lemma C7_output_redirection_modes_witness :
  let p := enter std_fds {[ "out.txt" := "hi" ]} blank_stack in
  files (after (redirect_output obliging (Some (line "out.txt")) p))
    = {[ "out.txt" := "" ]}
  ∧ files (after (redirect_append obliging (Some (line "out.txt")) p)) !! "out.txt"
    = Some "hi".
Proof.
  intros p.
  destruct (C7_output_redirection_modes obliging (line "out.txt") [] p eq_refl)
    as (_ & (_ & _ & _ & _ & _ & Htruncated & _) & (_ & _ & _ & _ & _ & Hkept & _)).
  split; [exact Htruncated | exact Hkept].
Defined.

(** The descriptor [open] returned is still open after it has been
    duplicated onto the standard stream: no [close] follows the [dup2] of a
    redirection. *)
Lemma redirection_keeps_descriptor env path flags mode target p :
  open_denied env path = false →
  (files p !! path = None → has_flag flags O_CREAT = true) →
  let r := (fd ← open env path flags mode;
            match fd with
            | None => perror "open" ;; exit 1
            | Some fd => or_die (dup2 fd target) "dup2" 2 ;; store_arg None
            end) p in
  fds (after r) !! lowest_free (fds p) = Some (OpenFile path flags).
Proof.
  intros Hgranted Hcreat r.
  destruct (open_then_dup2 env path flags mode target p Hgranted Hcreat) as (_ & _ & Hfds).
  subst r. rewrite Hfds.
  destruct (decide (target = lowest_free (fds p))) as [->|Hne].
  - apply lookup_insert_eq.
  - rewrite lookup_insert_ne by done. apply lookup_insert_eq.
Qed.

(** C8 at ["cat < f"], [f] being there: the child opens [f] on descriptor
    3, duplicates it onto descriptor 0, and replaces its image with
    descriptor 3 still open. *)
Theorem C8_redirection_descriptor_left_open :
  let children := spawned (read_eval obliging (line "cat < f") boot).2 in
  let run := run_child obliging {[ "f" := "x" ]} blank_stack in
  (fst ∘ run) <$> children = [Execed "cat" ["cat"]]
  ∧ (fds ∘ snd ∘ run) <$> children
    = [ {[ 0 := OpenFile "f" O_RDONLY; 1 := Inherited 1; 2 := Inherited 2;
           3 := OpenFile "f" O_RDONLY ]} ].
Proof. by vm_compute. Qed.

(** C5 at ["cat < | wc"] and at ["cat <"]: in the first stage of the
    former [<] is the last token, [strtok] returns NULL for the file name
    and the child applies [strcspn] to it; in the latter the token is [<]
    with the line terminator, no operator, and goes to [cat] as an
    argument. *)
Theorem C5_redirection_without_target :
  let children := spawned (read_eval obliging (line "cat < | wc") boot).2 in
  let run := run_child obliging ∅ blank_stack in
  arg_str <$> children = ["cat < "; line " wc"]
  ∧ (fst ∘ run) <$> children = [Undefined NullDereference; Execed "wc" ["wc"]]
  ∧ (fst ∘ run) <$> spawned (read_eval obliging (line "cat <") boot).2
    = [Execed "cat" ["cat"; "<"]].
Proof. by vm_compute. Qed.

(** C1 at ["a | b"]: the first child replaces its image holding the write
    end of the pipe on descriptor 1 and also its read end on descriptor 3;
    the second child holds the read end on descriptor 0.  The read end is
    open in two processes, and the shell holds neither end. *)
Theorem C1_writer_keeps_read_end :
  let done := (read_eval obliging (line "a | b") boot).2 in
  let run := run_child obliging ∅ blank_stack in
  (fst ∘ run) <$> spawned done = [Execed "a" ["a"]; Execed "b" ["b"]]
  ∧ (pipe_ends ∘ fds ∘ snd ∘ run) <$> spawned done
    = [ {[ 1 := PipeWrite 0; 3 := PipeRead 0 ]}; {[ 0 := PipeRead 0 ]} ]
  ∧ pipe_ends (sh_fds done) = ∅.
Proof. by vm_compute. Qed.

(** * Further properties of the code *)

(** ** [strtok] and [count_pipes] *)

Section Splitting.
Context (d : ascii).

Lemma tokens_empty : tokens d EmptyString = [].
Proof. reflexivity. Qed.

(** Splitting at a delimiter: the tokens of [a], then the tokens of [b]. *)
Lemma tokens_app_delim a b :
  tokens d (a +:+ String d b) = tokens d a ++ tokens d b.
Proof.
  cut (tokens d (a +:+ String d b) = tokens d a ++ tokens d b
       ∧ ∃ tok after1 after2,
           take_token d (a +:+ String d b) = (tok, after1)
           ∧ take_token d a = (tok, after2)
           ∧ tokens d after1 = tokens d after2 ++ tokens d b).
  { by intros [? _]. }
  induction a as [|c a [IHtok (tok & after1 & after2 & H1 & H2 & Hafter)]];
    rewrite ?append_empty, ?append_String; cbn [take_token].
  - rewrite tokens_leading_delim, Ascii.eqb_refl, tokens_empty.
    split; [done|]. by eexists _, _, _.
  - destruct (Ascii.eqb c d) eqn:Hc.
    + apply Ascii.eqb_eq in Hc as ->. rewrite !tokens_leading_delim.
      split; [done|]. by eexists _, _, _.
    + split; [|rewrite H1, H2; by eexists _, _, _].
      rewrite (tokens_unfold d (String c (a +:+ String d b))), (tokens_unfold d (String c a)).
      unfold strtok. simpl. rewrite Hc, H1, H2, Hc. simpl. by f_equal.
Qed.

(** A character that does not occur in the text occurs in none of its
    tokens. *)
Lemma take_token_occurs c s :
  occurs c s = false →
  occurs c (take_token d s).1 = false ∧ occurs c (take_token d s).2 = false.
Proof.
  induction s as [|c' s IH]; simpl; [done|].
  intros [Hc' Hs]%orb_false_iff. destruct (IH Hs) as [Htok Hafter].
  destruct (Ascii.eqb c' d); simpl; [done|].
  destruct (take_token d s) as [tok after]; simpl in *. by rewrite Hc', Htok.
Qed.

Lemma skip_delims_occurs c s : occurs c s = false → occurs c (skip_delims d s) = false.
Proof.
  induction s as [|c' s IH]; simpl; [done|].
  intros Hocc. destruct (Ascii.eqb c' d); [|done].
  apply orb_false_iff in Hocc as [_ Hs]. by apply IH.
Qed.

Lemma tokens_occurs c s :
  occurs c s = false → Forall (λ tok, occurs c tok = false) (tokens d s).
Proof.
  remember (String.length s) as n eqn:Hn. revert s Hn.
  induction n as [n IH] using lt_wf_ind. intros s -> Hocc.
  rewrite tokens_unfold.
  destruct (strtok d s) as [[tok after]|] eqn:Htok; [|done].
  pose proof (strtok_Some d s tok after Htok) as [_ Hlt].
  unfold strtok in Htok. apply (skip_delims_occurs c) in Hocc.
  destruct (skip_delims d s) as [|c' s'] eqn:Hskip; [done|].
  assert (take_token d (String c' s') = (tok, after)) as Htok' by congruence.
  destruct (take_token_occurs c _ Hocc) as [H1 H2]. rewrite Htok' in H1, H2.
  constructor; [done|]. by eapply IH.
Qed.

(** Text without the delimiter is one token, itself. *)
Lemma take_token_whole s : occurs d s = false → take_token d s = (s, EmptyString).
Proof.
  induction s as [|c s IH]; simpl; [done|].
  intros [Hc Hs]%orb_false_iff. rewrite Hc, (IH Hs). done.
Qed.

Lemma tokens_whole s :
  s ≠ EmptyString → occurs d s = false → tokens d s = [s].
Proof.
  intros Hne Hocc. rewrite tokens_unfold. unfold strtok.
  destruct s as [|c s]; [done|]. simpl in *.
  apply orb_false_iff in Hocc as [Hc Hs]. rewrite Hc.
  change (take_token d (String c s)) with
    (if Ascii.eqb c d then (EmptyString, s)
     else let '(tok, after) := take_token d s in (String c tok, after)).
  rewrite Hc, (take_token_whole s Hs). by rewrite tokens_empty.
Qed.

End Splitting.

Lemma count_fold (toks : list string) (acc : nat) :
  fold_left (λ pipe_count token, if streq token "|" then pipe_count + 1 else pipe_count)
            toks acc
  = acc + fold_left (λ pipe_count token, if streq token "|" then pipe_count + 1 else pipe_count)
                    toks 0.
Proof.
  revert acc. induction toks as [|tok toks IH]; intros acc; simpl; [lia|].
  destruct (streq tok "|").
  - rewrite (IH (acc + 1)), (IH 1). lia.
  - apply IH.
Qed.

(** X1.  A pipe operator standing between spaces is counted once, over
    what each side counts. *)
Theorem count_pipes_operator a b :
  count_pipes (a +:+ " | " +:+ b) = count_pipes a + 1 + count_pipes b.
Proof.
  unfold count_pipes.
  change (a +:+ " | " +:+ b) with (a +:+ String space ("|" +:+ String space b)).
  rewrite !tokens_app_delim. change (tokens space "|") with ["|"].
  rewrite !fold_left_app. simpl.
  rewrite (count_fold (tokens space b)). lia.
Qed.

(** X2.  A line in which the character ['|'] does not occur counts no pipe
    and is a single segment, the line itself. *)
Theorem line_without_bar input :
  input ≠ EmptyString → occurs bar input = false →
  count_pipes input = 0 ∧ tokens bar input = [input].
Proof.
  intros Hne Hocc. split; [|by apply tokens_whole].
  unfold count_pipes. pose proof (tokens_occurs space bar input Hocc) as Hall.
  induction Hall as [|tok toks Htok _ IH]; simpl; [done|].
  destruct (streq tok "|") eqn:Heq; [|done].
  apply streq_true in Heq as ->. done.
Qed.

Lemma line_without_bar_witness :
  count_pipes (line "ls -l") = 0 ∧ tokens bar (line "ls -l") = [line "ls -l"].
Proof. apply (line_without_bar (line "ls -l")); by vm_compute. Defined.

(** ** The shell's descriptors, on any line *)

Section AnyLine.
Context (env : environment) (num_pipes : nat) (base : fd_table).

Lemma during_line_at_most_one s :
  during_line base num_pipes s → at_most_one_read_end base (sh_fds s).
Proof.
  unfold during_line, at_most_one_read_end.
  repeat case_decide; [by left| |by intros [? _]; left].
  intros [Hfree [id Hfds]]. right. eauto.
Qed.

Lemma stage_during_line token s fl s' :
  during_line base num_pipes s →
  stage env num_pipes token s = (fl, s') →
  match fl with
  | Continue => during_line base num_pipes s'
  | Break => at_most_one_read_end base (sh_fds s')
  | Exit _ => True
  end.
Proof.
  intros Hinv. pose proof (during_line_at_most_one s Hinv) as Hmost.
  unfold stage.
  destruct (streq token (line "exit")); [by intros [= <- <-]|].
  destruct (streq token (line "")); [by intros [= <- <-]|].
  unfold during_line in *.
  destruct (decide (pipe_index s < num_pipes)) as [Hlt|Hge].
  - destruct (pipe_ok env (pipe_index s)); [|by intros [= <- <-]].
    destruct (fork_ok env (pipe_index s)); [|by intros [= <- <-]].
    unfold parent_closes, forked, open_pipe, sys_pipe; simpl.
    rewrite decide_True by lia. rewrite (decide_True (P := _ < _)) by done.
    set (r := lowest_free (sh_fds s)).
    set (w := lowest_free (<[r := PipeRead (pipes_made s)]> (sh_fds s))).
    pose proof (lowest_free_fresh (sh_fds s)) as Hr. fold r in Hr.
    pose proof (lowest_free_fresh (<[r := PipeRead (pipes_made s)]> (sh_fds s))) as Hw.
    fold w in Hw. rewrite close_new_write_end by done.
    destruct (decide (pipe_index s = 0)) as [Hz|Hnz].
    + rewrite decide_False by lia. intros [= <- <-]; simpl.
      rewrite Hinv in *. repeat case_decide; try lia. eauto.
    + rewrite decide_True in Hinv by lia. destruct Hinv as [H0 [id Ht]].
      rewrite decide_True by done. rewrite Ht in Hr |- *.
      destruct (close_prev_read_end base _ _ (PipeRead id) (PipeRead (pipes_made s)) H0 Hr)
        as [-> Hbase].
      intros [= <- <-]; simpl. repeat case_decide; try lia. eauto.
  - destruct (fork_ok env (pipe_index s)); [|by intros [= <- <-]].
    unfold parent_closes, forked; simpl.
    destruct (decide (0 < num_pipes)) as [Hpos|Hnone].
    + rewrite (decide_False (P := _ < _)) by done. rewrite decide_True by lia.
      rewrite decide_False in Hinv by lia.
      destruct (decide (pipe_index s ≤ num_pipes)) as [Hle|Hgt].
      * destruct Hinv as [H0 [id Ht]].
        unfold sys_close. rewrite Ht, lookup_insert_eq, delete_insert_id by done.
        intros [= <- <-]; simpl. repeat case_decide; try lia. done.
      * destruct Hinv as [Ht H0].
        unfold sys_close. rewrite Ht, H0 by done.
        intros [= <- <-]; simpl. by left.
    + intros [= <- <-]; simpl.
      repeat case_decide; try lia; (split; [|lia]); [done|by destruct Hinv].
Qed.

Lemma stage_loop_during_line segments s fl s' :
  during_line base num_pipes s →
  stage_loop env num_pipes segments s = (fl, s') →
  (∀ status, fl ≠ Exit status) → at_most_one_read_end base (sh_fds s').
Proof.
  revert s. induction segments as [|token rest IH]; intros s Hinv; simpl.
  - intros [= <- <-] _. by apply during_line_at_most_one.
  - destruct (stage env num_pipes token s) as [fl1 s1] eqn:Hstage.
    pose proof (stage_during_line token s fl1 s1 Hinv Hstage) as Hstep.
    destruct fl1 as [| |status].
    + by apply IH.
    + by intros [= <- <-] _.
    + intros [= <- <-] Hne. by destruct (Hne status).
Qed.

End AnyLine.

(** X3.  Whatever the line and whatever fails, a shell that goes on to the
    next line holds the descriptors it held before the line and at most one
    more, the read end of a pipe. *)
Theorem shell_keeps_at_most_one_read_end env input s s' :
  read_eval env input s = (None, s') →
  at_most_one_read_end (sh_fds s) (sh_fds s').
Proof.
  unfold read_eval.
  destruct (stage_loop _ _ _ _) as [fl s1] eqn:Hloop.
  assert (during_line (sh_fds s) (count_pipes (c_str input)) (reset s)) as Hinv.
  { unfold during_line. by rewrite decide_True. }
  pose proof (stage_loop_during_line _ _ _ _ _ _ _ Hinv Hloop) as Hmost.
  destruct fl as [| |status]; [| |done]; intros [= <-]; unfold print_prompt; simpl;
    destruct (waits_keep (count_pipes (c_str input) + 1) s1) as (-> & _ & _);
    by apply Hmost.
Qed.

Lemma shell_keeps_at_most_one_read_end_witness :
  at_most_one_read_end std_fds (sh_fds (read_eval obliging (line "| a") boot).2).
Proof.
  apply (shell_keeps_at_most_one_read_end obliging (line "| a") boot). reflexivity.
Defined.

(** ** Lines on which [count_pipes] counts no pipe *)

Section NoPipe.
Context (env : environment) (base : fd_table).

Lemma stage_no_pipe token s fl s' :
  read_fd s = 0 → write_fd s = 1 → sh_fds s = base →
  stage env 0 token s = (fl, s') →
  read_fd s' = 0 ∧ write_fd s' = 1 ∧ sh_fds s' = base
  ∧ pipes_made s' = pipes_made s
  ∧ ∃ cs, spawned s' = spawned s ++ cs
          ∧ Forall (λ c, given_read_fd c = 0 ∧ given_write_fd c = 1
                         ∧ inherited c = base) cs.
Proof.
  intros Hr Hw Hfds. unfold stage.
  destruct (streq token (line "exit")).
  { intros [= <- <-]. repeat split; try done. exists []. by rewrite app_nil_r. }
  destruct (streq token (line "")).
  { intros [= <- <-]. repeat split; try done. exists []. by rewrite app_nil_r. }
  rewrite decide_False by lia.
  destruct (fork_ok env (pipe_index s)).
  - unfold parent_closes, forked. rewrite decide_False by lia.
    intros [= <- <-]; simpl. repeat split; try done.
    eexists [_]. split; [done|]. constructor; [|done].
    destruct (decide (pipe_index s = 0)); simpl; by rewrite ?Hr, ?Hw, ?Hfds.
  - intros [= <- <-]; simpl. repeat split; try done.
    exists []. by rewrite app_nil_r.
Qed.

Lemma stage_loop_no_pipe segments s fl s' :
  read_fd s = 0 → write_fd s = 1 → sh_fds s = base →
  stage_loop env 0 segments s = (fl, s') →
  sh_fds s' = base ∧ pipes_made s' = pipes_made s
  ∧ ∃ cs, spawned s' = spawned s ++ cs
          ∧ Forall (λ c, given_read_fd c = 0 ∧ given_write_fd c = 1
                         ∧ inherited c = base) cs.
Proof.
  revert s. induction segments as [|token rest IH]; intros s Hr Hw Hfds; simpl.
  - intros [= <- <-]. repeat split; try done. exists []. by rewrite app_nil_r.
  - destruct (stage env 0 token s) as [fl1 s1] eqn:Hstage.
    destruct (stage_no_pipe token s fl1 s1 Hr Hw Hfds Hstage)
      as (Hr1 & Hw1 & Hfds1 & Hmade1 & cs1 & Hsp1 & Hall1).
    destruct fl1 as [| |status]; [|intros [= <- <-]; eauto 10..].
    intros Hrest.
    destruct (IH s1 Hr1 Hw1 Hfds1 Hrest) as (Hfds' & Hmade' & cs & Hsp & Hall).
    repeat split; [done|congruence|].
    exists (cs1 ++ cs). rewrite Hsp, Hsp1, app_assoc. split; [done|].
    by apply Forall_app.
Qed.

End NoPipe.

(** X4.  On a line on which [count_pipes] counts no pipe the shell makes
    no pipe and touches no descriptor, however many segments the line has
    and however the line ends: every child forked starts with the shell's
    own table and is given descriptors 0 and 1. *)
Theorem no_counted_pipe_no_descriptor env input s :
  count_pipes (c_str input) = 0 →
  let s' := (read_eval env input s).2 in
  sh_fds s' = sh_fds s ∧ pipes_made s' = pipes_made s
  ∧ ∃ cs, spawned s' = spawned s ++ cs
          ∧ Forall (λ c, given_read_fd c = 0 ∧ given_write_fd c = 1
                         ∧ inherited c = sh_fds s) cs.
Proof.
  intros Hcount. unfold read_eval. rewrite Hcount.
  destruct (stage_loop env 0 (tokens bar (c_str input)) (reset s)) as [fl s1] eqn:Hloop.
  destruct (stage_loop_no_pipe env (sh_fds s) _ (reset s) fl s1 eq_refl eq_refl eq_refl Hloop)
    as (Hfds & Hmade & cs & Hsp & Hall).
  destruct fl as [| |status]; simpl; try done;
    destruct (waits_keep 1 s1) as (Hwf & Hwm & Hws); simpl in *; eauto.
Qed.

Lemma no_counted_pipe_no_descriptor_witness :
  let s' := (read_eval obliging (line "a|b") boot).2 in
  sh_fds s' = std_fds ∧ pipes_made s' = 0
  ∧ ∃ cs, spawned s' = [] ++ cs
          ∧ Forall (λ c, given_read_fd c = 0 ∧ given_write_fd c = 1
                         ∧ inherited c = std_fds) cs.
Proof.
  apply (no_counted_pipe_no_descriptor obliging (line "a|b") boot). reflexivity.
Defined.

(** ** Children waited for *)

Lemma stage_unreaped env num_pipes token s fl s' :
  stage env num_pipes token s = (fl, s') →
  (∀ status, fl ≠ Exit status) →
  unreaped s' + length (spawned s) = unreaped s + length (spawned s').
Proof.
  unfold stage, parent_closes. intros H Hne.
  repeat (case_decide || case_match); simplify_eq; simpl;
    rewrite ?spawned_open_pipe, ?length_app; simpl;
    try (unfold open_pipe, sys_pipe; simpl); try lia;
    by destruct (Hne 1%Z).
Qed.

Lemma stage_loop_unreaped env num_pipes segments s fl s' :
  stage_loop env num_pipes segments s = (fl, s') →
  (∀ status, fl ≠ Exit status) →
  unreaped s' + length (spawned s) = unreaped s + length (spawned s').
Proof.
  revert s. induction segments as [|token rest IH]; intros s; simpl.
  - by intros [= <- <-].
  - destruct (stage env num_pipes token s) as [fl1 s1] eqn:Hstage.
    destruct fl1 as [| |status].
    + intros Hrest Hne. apply stage_unreaped in Hstage; [|done].
      apply IH in Hrest; [|done]. lia.
    + intros [= <- <-] Hne. by apply stage_unreaped in Hstage.
    + intros [= <- <-] Hne. by destruct (Hne status).
Qed.

Lemma waits_unreaped n s : unreaped (Nat.iter n wait s) = unreaped s - n.
Proof. induction n as [|n IH]; simpl; [lia|]. rewrite IH. lia. Qed.

(** X5.  A shell that goes on to the next line has called [wait] once for
    every pipe counted and once more, whatever it forked: the children not
    waited for are those there were before, and the [k] forked on this
    line, less [count_pipes + 1].  Where the line has more segments than
    that, children are left behind. *)
Theorem waits_by_count env input s s' :
  read_eval env input s = (None, s') →
  unreaped s' =
    unreaped s + (length (spawned s') - length (spawned s))
    - (count_pipes (c_str input) + 1).
Proof.
  unfold read_eval.
  destruct (stage_loop _ _ _ _) as [fl s1] eqn:Hloop.
  pose proof (stage_loop_spawned_prefix env (count_pipes (c_str input))
                (tokens bar (c_str input)) (reset s)) as Hprefix.
  rewrite Hloop in Hprefix. apply prefix_length in Hprefix.
  destruct fl as [| |status]; [| |done]; intros [= <-];
    apply stage_loop_unreaped in Hloop; try done;
    unfold print_prompt; simpl in *;
    rewrite waits_unreaped;
    destruct (waits_keep (count_pipes (c_str input) + 1) s1) as (_ & _ & ->); lia.
Qed.

Lemma waits_by_count_witness :
  unreaped (read_eval obliging (line "a|b") boot).2 = 1.
Proof.
  apply (waits_by_count obliging (line "a|b") boot). reflexivity.
Defined.

(** ** How the stages of a pipeline are wired *)

Lemma free_above_std (base : fd_table) fd :
  is_Some (base !! 0) → is_Some (base !! 1) → base !! fd = None → 1 < fd.
Proof.
  intros [o0 H0] [o1 H1] Hfd.
  destruct (decide (fd = 0)) as [->|?]; [congruence|].
  destruct (decide (fd = 1)) as [->|?]; [congruence|]. lia.
Qed.

Ltac wire Hmade :=
  repeat case_decide; try lia; repeat split;
  rewrite ?Hmade, ?lookup_insert_eq; rewrite ?lookup_insert_ne by lia;
  rewrite ?lookup_insert_eq; try done; try lia; try (repeat f_equal; lia).

Section Wiring.
Context (env : environment) (num_pipes first : nat) (base : fd_table).
Context (Hstdin : is_Some (base !! 0)) (Hstdout : is_Some (base !! 1)).

Lemma stage_wires token s :
  before_stage base first num_pipes s → pipe_index s ≤ num_pipes →
  runs_a_stage token →
  (pipe_index s < num_pipes → pipe_ok env (pipe_index s) = true) →
  fork_ok env (pipe_index s) = true →
  ∃ s' c, stage env num_pipes token s = (Continue, s')
          ∧ spawned s' = spawned s ++ [c]
          ∧ stage_index c = pipe_index s ∧ arg_str c = token
          ∧ wired base first num_pipes c
          ∧ pipe_index s' = S (pipe_index s)
          ∧ (pipe_index s < num_pipes → before_stage base first num_pipes s').
Proof.
  intros [Hmade Hinv] Hle [Hexit Hnl] Hpipe Hfork. unfold stage.
  apply streq_false in Hexit, Hnl. rewrite Hexit, Hnl, Hfork.
  destruct (decide (pipe_index s < num_pipes)) as [Hlt|Hge].
  - rewrite (Hpipe Hlt).
    unfold parent_closes, forked, open_pipe, sys_pipe; simpl.
    rewrite decide_True by lia. rewrite (decide_True (P := _ < _)) by done.
    set (r := lowest_free (sh_fds s)).
    set (w := lowest_free (<[r := PipeRead (pipes_made s)]> (sh_fds s))).
    pose proof (lowest_free_fresh (sh_fds s)) as Hr. fold r in Hr.
    pose proof (lowest_free_fresh (<[r := PipeRead (pipes_made s)]> (sh_fds s))) as Hw.
    fold w in Hw. rewrite close_new_write_end by done.
    apply lookup_insert_None in Hw as [Hw Hrw].
    destruct (decide (pipe_index s = 0)) as [Hz|Hnz].
    + destruct Hinv as [Hfds Hwr]. rewrite Hfds in *.
      pose proof (free_above_std base r Hstdin Hstdout Hr) as Hr1.
      pose proof (free_above_std base w Hstdin Hstdout Hw) as Hw1.
      rewrite (decide_False (P := _ ≠ _)) by lia.
      eexists _, _. split; [done|]. simpl.
      repeat split; try done; unfold wired, before_stage; simpl; wire Hmade.
    + destruct Hinv as [H0 Hfds]. rewrite Hfds in *.
      apply lookup_insert_None in Hr as [Hr Hr0], Hw as [Hw Hw0].
      pose proof (free_above_std base r Hstdin Hstdout Hr) as Hr1.
      pose proof (free_above_std base w Hstdin Hstdout Hw) as Hw1.
      pose proof (free_above_std base (read_fd s) Hstdin Hstdout H0) as Hr01.
      rewrite (decide_True (P := _ ≠ _)) by done.
      unfold sys_close. rewrite lookup_insert_ne, lookup_insert_eq by done.
      rewrite delete_insert_ne, delete_insert_id by done.
      eexists _, _. split; [done|]. simpl.
      repeat split; try done; unfold wired, before_stage; simpl; wire Hmade.
  - assert (pipe_index s = num_pipes) as Hlast by lia.
    unfold parent_closes, forked; simpl.
    destruct (decide (pipe_index s = 0)) as [Hz|Hnz].
    + destruct Hinv as [Hfds Hwr]. rewrite decide_False by lia.
      eexists _, _. split; [done|]. simpl.
      repeat split; try done; try lia; unfold wired; simpl; rewrite ?Hfds; wire Hmade.
    + destruct Hinv as [H0 Hfds].
      pose proof (free_above_std base (read_fd s) Hstdin Hstdout H0) as Hr01.
      rewrite decide_True by lia. rewrite (decide_False (P := _ < _)) by done.
      rewrite (decide_True (P := _ ≠ _)) by done.
      unfold sys_close. rewrite Hfds, lookup_insert_eq, delete_insert_id by done.
      eexists _, _. split; [done|]. simpl.
      repeat split; try done; try lia; unfold wired; simpl; wire Hmade.
Qed.

Lemma stage_loop_wires segments s :
  before_stage base first num_pipes s →
  pipe_index s + length segments = S num_pipes →
  Forall runs_a_stage segments →
  no_failure env num_pipes →
  ∃ s' cs, stage_loop env num_pipes segments s = (Continue, s')
           ∧ spawned s' = spawned s ++ cs
           ∧ arg_str <$> cs = segments
           ∧ stage_index <$> cs = seq (pipe_index s) (length segments)
           ∧ Forall (wired base first num_pipes) cs.
Proof.
  revert s. induction segments as [|token rest IH]; intros s Hinv Hlen Hrun Hok; simpl in *.
  - exists s, []. by rewrite app_nil_r.
  - apply Forall_cons in Hrun as [Htok Hrest].
    destruct Hok as [Hpipe Hfork].
    destruct (stage_wires token s Hinv ltac:(lia) Htok
                (Hpipe (pipe_index s)) (Hfork (pipe_index s) ltac:(lia)))
      as (s1 & c & -> & Hsp1 & Hidx & Harg & Hwired & Hnext & Hinv1).
    destruct rest as [|token' rest].
    + exists s1, [c]. simpl. rewrite Hidx, Harg. repeat split; try done.
      by constructor.
    + destruct (IH s1) as (s' & cs & -> & Hsp & Hargs & Hidxs & Hall); try done.
      { apply Hinv1. simpl in Hlen. lia. }
      { simpl in *. lia. }
      exists s', (c :: cs). rewrite Hsp, Hsp1, <- app_assoc.
      rewrite !fmap_cons, Hidx, Harg, Hargs, Hidxs, Hnext. repeat split; try done.
      by constructor.
Qed.

End Wiring.

(** X6.  On a line whose [n] segments are all run as stages and whose
    pipes [count_pipes] counts as [n - 1], with [pipe] and [fork]
    succeeding and descriptors 0 and 1 open in the shell, the children are
    forked in the order of the segments, one per segment, and wired in a
    chain: child [i] is given the read end of the line's pipe [i - 1] (the
    first is given descriptor 0) and the write end of its pipe [i] (the
    last is given descriptor 1). *)
Theorem pipeline_wired env input s :
  let segments := tokens bar (c_str input) in
  let num_pipes := count_pipes (c_str input) in
  length segments = S num_pipes →
  Forall runs_a_stage segments →
  no_failure env num_pipes →
  is_Some (sh_fds s !! 0) → is_Some (sh_fds s !! 1) →
  ∃ cs, spawned (read_eval env input s).2 = spawned s ++ cs
        ∧ arg_str <$> cs = segments
        ∧ stage_index <$> cs = seq 0 (length segments)
        ∧ Forall (wired (sh_fds s) (pipes_made s) num_pipes) cs.
Proof.
  intros segments num_pipes Hlen Hrun Hok Hstdin Hstdout.
  rewrite read_eval_spawned. fold segments num_pipes.
  assert (before_stage (sh_fds s) (pipes_made s) num_pipes (reset s)) as Hinv.
  { unfold before_stage; simpl. split; [lia|done]. }
  destruct (stage_loop_wires env num_pipes (pipes_made s) (sh_fds s) Hstdin Hstdout
              segments (reset s) Hinv Hlen Hrun Hok)
    as (s' & cs & -> & Hsp & Hargs & Hidxs & Hall).
  exists cs. done.
Qed.

Lemma pipeline_wired_witness :
  ∃ cs, spawned (read_eval obliging (line "a | b | c") boot).2 = [] ++ cs
        ∧ arg_str <$> cs = ["a "; " b "; line " c"]
        ∧ stage_index <$> cs = [0; 1; 2]
        ∧ Forall (wired std_fds 0 2) cs.
Proof.
  apply (pipeline_wired obliging (line "a | b | c") boot).
  - reflexivity.
  - repeat constructor; by vm_compute.
  - apply obliging_no_failure.
  - eexists; reflexivity.
  - eexists; reflexivity.
Defined.

(** ** The child: binding the standard streams *)

Ltac fd_simpl :=
  repeat first [ rewrite lookup_insert_eq | rewrite lookup_delete_eq
               | rewrite lookup_insert_ne by lia | rewrite lookup_delete_ne by lia ].

Ltac run_child_steps :=
  unfold bind_stdout, bind_stdin, or_die, dup2, close, sys_dup2, sys_close,
    perror, emit, exit, mbind, child_bind, mret, child_ret; simpl.

(** The two binding blocks of [process_args], on descriptors that are open. *)
Lemma binding_blocks r w (from to : file_object) p :
  fds p !! r = Some from → fds p !! w = Some to →
  (r = 0 ∨ 1 < r) → (w = 1 ∨ 1 < w) → r ≠ w →
  ∃ p', (bind_stdout w ;; bind_stdin r) p = Returns tt p'
        ∧ fds p' !! 0 = Some from ∧ fds p' !! 1 = Some to
        ∧ (r ≠ 0 → fds p' !! r = None) ∧ (w ≠ 1 → fds p' !! w = None)
        ∧ (∀ fd, fd ≠ 0 → fd ≠ 1 → fd ≠ r → fd ≠ w → fds p' !! fd = fds p !! fd)
        ∧ files p' = files p ∧ log p' = log p
        ∧ opt_args_buf p' = opt_args_buf p ∧ args_buf_index p' = args_buf_index p.
Proof.
  intros Hr Hw Hrstd Hwstd Hne. run_child_steps.
  destruct (decide (w ≠ 1)) as [Hw1|Hw1]; destruct (decide (r ≠ 0)) as [Hr0|Hr0]; simpl.
  - repeat (fd_simpl; rewrite ?Hr, ?Hw; simpl).
    eexists; split; [done|]. simpl.
    repeat split; try done; intros; by fd_simpl.
  - assert (r = 0) as -> by lia.
    repeat (fd_simpl; rewrite ?Hr, ?Hw; simpl).
    eexists; split; [done|]. simpl.
    repeat split; try done; intros; by fd_simpl.
  - assert (w = 1) as -> by lia.
    repeat (fd_simpl; rewrite ?Hr, ?Hw; simpl).
    eexists; split; [done|]. simpl.
    repeat split; try done; intros; by fd_simpl.
  - assert (r = 0) as -> by lia. assert (w = 1) as -> by lia.
    eexists; split; [done|]. repeat split; try done.
Qed.

(** X7.  Given a read descriptor and a write descriptor that are open,
    different, and either the standard one (0 for reading, 1 for writing) or
    above 1, the two binding blocks of [process_args] succeed: descriptor 0
    then refers to what the read descriptor referred to and descriptor 1 to
    what the write descriptor referred to, each given descriptor that is
    not the standard one is closed, and every other descriptor of the child
    is as it was inherited. *)
Theorem bind_streams r w (from to : file_object) p :
  fds p !! r = Some from → fds p !! w = Some to →
  (r = 0 ∨ 1 < r) → (w = 1 ∨ 1 < w) → r ≠ w →
  ∃ p', (bind_stdout w ;; bind_stdin r) p = Returns tt p'
        ∧ fds p' !! 0 = Some from ∧ fds p' !! 1 = Some to
        ∧ (r ≠ 0 → fds p' !! r = None) ∧ (w ≠ 1 → fds p' !! w = None)
        ∧ (∀ fd, fd ≠ 0 → fd ≠ 1 → fd ≠ r → fd ≠ w → fds p' !! fd = fds p !! fd)
        ∧ files p' = files p ∧ log p' = log p
        ∧ opt_args_buf p' = opt_args_buf p ∧ args_buf_index p' = args_buf_index p.
Proof. apply binding_blocks. Qed.

Lemma bind_streams_witness :
  ∃ p', (bind_stdout 4 ;; bind_stdin 0)
          (enter (<[3 := PipeRead 0]> (<[4 := PipeWrite 0]> std_fds)) ∅ blank_stack)
        = Returns tt p'
        ∧ fds p' !! 0 = Some (Inherited 0) ∧ fds p' !! 1 = Some (PipeWrite 0)
        ∧ fds p' !! 4 = None.
Proof.
  destruct (bind_streams 0 4 (Inherited 0) (PipeWrite 0)
              (enter (<[3 := PipeRead 0]> (<[4 := PipeWrite 0]> std_fds)) ∅ blank_stack))
    as (p' & Hrun & Hin & Hout & _ & Hclosed & _).
  - by vm_compute.
  - by vm_compute.
  - left; reflexivity.
  - right; lia.
  - lia.
  - exists p'. repeat split; [exact Hrun|exact Hin|exact Hout|apply Hclosed; lia].
Defined.

(** X8.  A child wired as a stage of a pipeline has, once the binding
    blocks have run, the read end of the pipe before it as its standard
    input and the write end of the pipe after it as its standard output
    (the shell's own where it is the first or the last stage): what stage
    [i] writes, stage [i + 1] reads. *)
Theorem wired_child_streams base first num_pipes c fs junk :
  wired base first num_pipes c →
  is_Some (base !! 0) → is_Some (base !! 1) →
  ∃ p', (bind_stdout (given_write_fd c) ;; bind_stdin (given_read_fd c))
          (enter (inherited c) fs junk) = Returns tt p'
        ∧ fds p' !! 0 =
            (if decide (stage_index c = 0) then base !! 0
             else Some (PipeRead (first + stage_index c - 1)))
        ∧ fds p' !! 1 =
            (if decide (stage_index c = num_pipes) then base !! 1
             else Some (PipeWrite (first + stage_index c))).
Proof.
  intros (Hread & Hwrite & Hne & H0 & H1) [o0 Hstdin] [o1 Hstdout].
  set (p := enter (inherited c) fs junk).
  assert (∃ from, fds p !! given_read_fd c = Some from
                  ∧ (given_read_fd c = 0 ∨ 1 < given_read_fd c)
                  ∧ Some from = (if decide (stage_index c = 0) then base !! 0
                                 else Some (PipeRead (first + stage_index c - 1))))
    as (from & Hfrom & Hrstd & Hfromeq).
  { simpl. destruct (decide (stage_index c = 0)).
    - rewrite Hread, H0, Hstdin. eauto.
    - destruct Hread as [-> ?]. eauto. }
  assert (∃ to, fds p !! given_write_fd c = Some to
                ∧ (given_write_fd c = 1 ∨ 1 < given_write_fd c)
                ∧ Some to = (if decide (stage_index c = num_pipes) then base !! 1
                             else Some (PipeWrite (first + stage_index c))))
    as (to & Hto & Hwstd & Htoeq).
  { simpl. destruct (decide (stage_index c = num_pipes)).
    - rewrite Hwrite, H1, Hstdout. eauto.
    - destruct Hwrite as [-> ?]. eauto. }
  destruct (binding_blocks _ _ from to p Hfrom Hto Hrstd Hwstd Hne)
    as (p' & Hrun & Hin & Hout & _).
  exists p'. rewrite Hin, Hout. done.
Qed.

Lemma wired_child_streams_witness :
  let c := {| stage_index := 1; arg_str := " b ";
              inherited := <[3 := PipeRead 0]> (<[4 := PipeRead 1]>
                             (<[5 := PipeWrite 1]> std_fds));
              given_read_fd := 3; given_write_fd := 5 |} in
  ∃ p', (bind_stdout 5 ;; bind_stdin 3) (enter (inherited c) ∅ blank_stack)
        = Returns tt p'
        ∧ fds p' !! 0 = Some (PipeRead 0) ∧ fds p' !! 1 = Some (PipeWrite 1).
Proof.
  intros c.
  apply (wired_child_streams std_fds 0 2 c ∅ blank_stack).
  - repeat split; simpl; try reflexivity; lia.
  - eexists; reflexivity.
  - eexists; reflexivity.
Defined.

(** ** The child: the argument vector *)

Lemma buffered_bound kept p : buffered kept p → length kept ≤ MAX_ARGS.
Proof.
  intros (_ & Htake & Hlen).
  apply (f_equal length) in Htake. rewrite length_take, length_fmap in Htake. lia.
Qed.

Lemma argv_of_kept (kept : list string) rest : argv_of ((Some <$> kept) ++ None :: rest) = kept.
Proof. induction kept as [|arg kept IH]; simpl; [done|]. by f_equal. Qed.

Lemma buffered_store_null kept p p' :
  buffered kept p → store_arg None p = Returns tt p' →
  buffered kept p' ∧ length kept < MAX_ARGS
  ∧ argv_of (opt_args_buf p') = kept
  ∧ fds p' = fds p ∧ files p' = files p ∧ log p' = log p.
Proof.
  intros (Hidx & Htake & Hlen). unfold store_arg.
  case_decide as Hlt; [|done]. intros [= <-]; simpl.
  rewrite Hidx in *. repeat split; try done; simpl.
  - by rewrite take_insert_ge by lia.
  - by rewrite length_insert.
  - rewrite <- (take_drop (length kept) (opt_args_buf p)), Htake.
    rewrite insert_app_r_alt by (rewrite length_fmap; lia).
    rewrite length_fmap, Nat.sub_diag.
    destruct (drop (length kept) (opt_args_buf p)) as [|slot rest] eqn:Hdrop.
    { apply (f_equal length) in Hdrop. rewrite length_drop in Hdrop. simpl in *. lia. }
    simpl. apply argv_of_kept.
Qed.

Lemma buffered_keep_argument kept token p p' :
  buffered kept p → keep_argument token p = Returns tt p' →
  buffered (kept ++ [chomp token]) p'
  ∧ fds p' = fds p ∧ files p' = files p ∧ log p' = log p.
Proof.
  intros (Hidx & Htake & Hlen).
  unfold keep_argument, store_arg, next_arg, mbind, child_bind.
  case_decide as Hlt; [|done]. intros [= <-]; simpl.
  rewrite Hidx in *. repeat split; try done; simpl.
  - rewrite length_app. simpl. lia.
  - rewrite length_app. simpl. rewrite Nat.add_1_r.
    rewrite (take_S_r _ _ (Some (chomp token))).
    + rewrite take_insert_ge, Htake, fmap_app by lia. done.
    + apply list_lookup_insert_eq. lia.
  - by rewrite length_insert.
Qed.

Lemma keep_argument_overrun kept token p :
  buffered kept p → length kept = MAX_ARGS →
  keep_argument token p = Stops (Undefined (OutOfBounds MAX_ARGS)) p.
Proof.
  intros (Hidx & _) Hfull. unfold keep_argument, store_arg, mbind, child_bind.
  rewrite decide_False by lia. by rewrite Hidx, Hfull.
Qed.

Section ArgumentVector.
Context (env : environment).

(** A redirection that returns leaves the arguments kept as they are. *)
Lemma buffered_redirect kept path flags mode target p p' :
  buffered kept p →
  (fd ← open env path flags mode;
   match fd with
   | None => perror "open" ;; exit 1
   | Some fd => or_die (dup2 fd target) "dup2" 2 ;; store_arg None
   end) p = Returns tt p' →
  buffered kept p'.
Proof.
  intros Hbuf. unfold mbind, child_bind, open, or_die, mbind, child_bind, dup2, perror,
    emit, exit, mret, child_ret.
  destruct (sys_open _ _ _ _ _) as [[[fd fs] t]|]; simpl; [|done].
  destruct (sys_dup2 fd target t) as [t'|]; simpl; [|done].
  intros Hstore. eapply buffered_store_null in Hstore as [Hkept _]; [done|].
  by destruct Hbuf as (? & ? & ?).
Qed.

Lemma scan_tokens_buffered toks kept p p' :
  buffered kept p → scan_tokens env toks p = Returns tt p' →
  buffered (kept ++ (chomp <$> arguments toks)) p'.
Proof.
  remember (length toks) as n eqn:Hn. revert toks kept p Hn.
  induction n as [n IH] using lt_wf_ind. intros toks kept p -> Hbuf.
  destruct toks as [|token rest]; simpl.
  { intros [= <-]. by rewrite app_nil_r. }
  unfold is_operator, exit, mbind, child_bind.
  destruct (streq token (line "exit")); [done|].
  destruct (streq token "<"); simpl.
  { destruct rest as [|file rest]; [done|].
    destruct (redirect_input env (Some file) p) as [[] p1|] eqn:Hredir; [|done].
    apply (buffered_redirect kept) in Hredir; [|done].
    eapply IH; [|done..]. simpl. lia. }
  destruct (streq token ">"); simpl.
  { destruct rest as [|file rest]; [done|].
    destruct (redirect_output env (Some file) p) as [[] p1|] eqn:Hredir; [|done].
    apply (buffered_redirect kept) in Hredir; [|done].
    eapply IH; [|done..]. simpl. lia. }
  destruct (streq token ">>"); simpl.
  { destruct rest as [|file rest]; [done|].
    destruct (redirect_append env (Some file) p) as [[] p1|] eqn:Hredir; [|done].
    apply (buffered_redirect kept) in Hredir; [|done].
    eapply IH; [|done..]. simpl. lia. }
  destruct (keep_argument token p) as [[] p1|] eqn:Hkeep; [|done].
  apply (buffered_keep_argument kept) in Hkeep as [Hbuf1 _]; [|done].
  intros Hrest. rewrite (cons_middle (chomp token)), app_assoc.
  eapply IH; [|done..]. simpl. lia.
Qed.

Lemma bind_keeps_buffer r w p p' :
  (bind_stdout w ;; bind_stdin r) p = Returns tt p' →
  opt_args_buf p' = opt_args_buf p ∧ args_buf_index p' = args_buf_index p.
Proof.
  unfold mbind, child_bind.
  destruct (bind_stdout w p) as [[] p1|] eqn:Hout; [|done]. intros Hin.
  assert (∀ fd what status q q',
            (or_die (dup2 fd 0) what status q = Returns tt q'
             ∨ or_die (dup2 fd 1) what status q = Returns tt q'
             ∨ or_die (close fd) what status q = Returns tt q') →
            opt_args_buf q' = opt_args_buf q ∧ args_buf_index q' = args_buf_index q)
    as Hstep.
  { intros fd what status q q'.
    unfold or_die, mbind, child_bind, dup2, close, perror, emit, exit, mret, child_ret.
    intros [H|[H|H]]; revert H;
      [destruct (sys_dup2 fd 0 (fds q))|destruct (sys_dup2 fd 1 (fds q))
      |destruct (sys_close fd (fds q))]; simpl; by intros [= <-]. }
  assert (opt_args_buf p1 = opt_args_buf p ∧ args_buf_index p1 = args_buf_index p)
    as [Hb1 Hi1].
  { revert Hout. unfold bind_stdout. case_decide; [|by intros [= <-]].
    unfold mbind, child_bind.
    destruct (or_die (dup2 w 1) "dup2" 2 p) as [[] q|] eqn:Hdup; [|done].
    intros Hclose.
    destruct (Hstep w "dup2" 2%Z p q) as [<- <-]; [auto|].
    apply (Hstep w "close" 1%Z q p1). auto. }
  rewrite <- Hb1, <- Hi1.
  revert Hin. unfold bind_stdin. case_decide; [|by intros [= <-]].
  unfold mbind, child_bind.
  destruct (or_die (dup2 r 0) "dup2" 2 p1) as [[] q|] eqn:Hdup; [|done].
  intros Hclose.
  destruct (Hstep r "dup2" 2%Z p1 q) as [<- <-]; [auto|].
  apply (Hstep r "close" 1%Z q p'). auto.
Qed.

End ArgumentVector.

(** ** The child: how it ends *)

Section Endings.
Context (env : environment).

Lemma or_die_stops call what status p e p' :
  reported status what →
  (∀ q b q', call q = Returns b q' → log q' = log q) →
  (∀ q e' q', call q ≠ Stops e' q') →
  or_die call what status p = Stops e p' →
  accounted e p' ∧ not_exec e.
Proof.
  intros Hrep Hlog Hnostop. unfold or_die, mbind, child_bind, perror, emit, exit, mret, child_ret.
  destruct (call p) as [[] q|e' q] eqn:Hcall; [done| |by destruct (Hnostop p e' q)].
  intros [= <- <-]. split; [|done]. right. exists what. split; [done|].
  simpl. apply last_snoc.
Qed.

Lemma dup2_log oldfd newfd q b q' : dup2 oldfd newfd q = Returns b q' → log q' = log q.
Proof. unfold dup2. destruct (sys_dup2 _ _ _); by intros [= <- <-]. Qed.

Lemma dup2_returns oldfd newfd q e q' : dup2 oldfd newfd q ≠ Stops e q'.
Proof. unfold dup2. by destruct (sys_dup2 _ _ _). Qed.

Lemma close_log fd q b q' : close fd q = Returns b q' → log q' = log q.
Proof. unfold close. destruct (sys_close _ _); by intros [= <- <-]. Qed.

Lemma close_returns fd q e q' : close fd q ≠ Stops e q'.
Proof. unfold close. by destruct (sys_close _ _). Qed.

Lemma dup2_or_die_stops oldfd newfd p e p' :
  or_die (dup2 oldfd newfd) "dup2" 2 p = Stops e p' → accounted e p' ∧ not_exec e.
Proof.
  apply or_die_stops;
    [right; left; done | apply dup2_log | apply dup2_returns].
Qed.

Lemma close_or_die_stops fd p e p' :
  or_die (close fd) "close" 1 p = Stops e p' → accounted e p' ∧ not_exec e.
Proof.
  apply or_die_stops;
    [left; split; [done|by right] | apply close_log | apply close_returns].
Qed.

Lemma bind_stdout_stops w p e p' :
  bind_stdout w p = Stops e p' → accounted e p' ∧ not_exec e.
Proof.
  unfold bind_stdout. case_decide; [|done]. unfold mbind, child_bind.
  destruct (or_die (dup2 w 1) "dup2" 2 p) as [[] q|e' q] eqn:Hdup.
  - apply close_or_die_stops.
  - intros [= <- <-]. by apply dup2_or_die_stops in Hdup.
Qed.

Lemma bind_stdin_stops r p e p' :
  bind_stdin r p = Stops e p' → accounted e p' ∧ not_exec e.
Proof.
  unfold bind_stdin. case_decide; [|done]. unfold mbind, child_bind.
  destruct (or_die (dup2 r 0) "dup2" 2 p) as [[] q|e' q] eqn:Hdup.
  - apply close_or_die_stops.
  - intros [= <- <-]. by apply dup2_or_die_stops in Hdup.
Qed.

Lemma store_arg_stops v p e p' :
  store_arg v p = Stops e p' → accounted e p' ∧ not_exec e.
Proof. unfold store_arg. case_decide; [done|]. by intros [= <- <-]. Qed.

Lemma redirect_stops path flags mode target p e p' :
  (fd ← open env path flags mode;
   match fd with
   | None => perror "open" ;; exit 1
   | Some fd => or_die (dup2 fd target) "dup2" 2 ;; store_arg None
   end) p = Stops e p' →
  accounted e p' ∧ not_exec e.
Proof.
  unfold mbind at 1, child_bind at 1, open.
  destruct (sys_open _ _ _ _ _) as [[[fd fs] t]|]; simpl.
  - unfold mbind, child_bind.
    destruct (or_die (dup2 fd target) "dup2" 2 _) as [[] q|e' q] eqn:Hdup.
    + apply store_arg_stops.
    + intros [= <- <-]. by apply dup2_or_die_stops in Hdup.
  - unfold mbind, child_bind, perror, emit, exit. intros [= <- <-]. split; [|done].
    right. exists "open". split; [left; split; [done|by left]|]. simpl. apply last_snoc.
Qed.

Lemma redirection_stops (file : option string) p e p' :
  redirect_input env file p = Stops e p'
  ∨ redirect_output env file p = Stops e p'
  ∨ redirect_append env file p = Stops e p' →
  accounted e p' ∧ not_exec e.
Proof.
  unfold redirect_input, redirect_output, redirect_append.
  destruct file as [file|].
  - intros [H|[H|H]]; by apply redirect_stops in H.
  - unfold undefined. by intros [[= <- <-]|[[= <- <-]|[= <- <-]]].
Qed.

Lemma scan_tokens_stops toks p e p' :
  scan_tokens env toks p = Stops e p' → accounted e p' ∧ not_exec e.
Proof.
  remember (length toks) as n eqn:Hn. revert toks p Hn.
  induction n as [n IH] using lt_wf_ind. intros toks p ->.
  destruct toks as [|token rest]; simpl; [done|].
  unfold exit, mbind, child_bind.
  destruct (streq token (line "exit")).
  { intros [= <- <-]. split; [by left|done]. }
  destruct (streq token "<").
  { destruct rest as [|file rest]; [intros H; apply (redirection_stops None p); auto|].
    destruct (redirect_input env (Some file) p) as [[] p1|e1 p1] eqn:Hredir.
    - eapply IH; [|done]. simpl. lia.
    - intros [= <- <-]. apply (redirection_stops (Some file) p); auto. }
  destruct (streq token ">").
  { destruct rest as [|file rest]; [intros H; apply (redirection_stops None p); auto|].
    destruct (redirect_output env (Some file) p) as [[] p1|e1 p1] eqn:Hredir.
    - eapply IH; [|done]. simpl. lia.
    - intros [= <- <-]. apply (redirection_stops (Some file) p); auto. }
  destruct (streq token ">>").
  { destruct rest as [|file rest]; [intros H; apply (redirection_stops None p); auto|].
    destruct (redirect_append env (Some file) p) as [[] p1|e1 p1] eqn:Hredir.
    - eapply IH; [|done]. simpl. lia.
    - intros [= <- <-]. apply (redirection_stops (Some file) p); auto. }
  destruct (keep_argument token p) as [[] p1|e1 p1] eqn:Hkeep.
  - eapply IH; [|done]. simpl. lia.
  - intros [= <- <-]. unfold keep_argument, mbind, child_bind in Hkeep.
    destruct (store_arg (Some (chomp token)) p) as [[] q|e' q] eqn:Hstore; [done|].
    injection Hkeep as <- <-. by apply store_arg_stops in Hstore.
Qed.

Lemma finish_accounted program_name p e p' :
  finish env program_name p = Stops e p' → accounted e p'.
Proof.
  unfold finish. destruct program_name as [program_name|]; [|by intros [= <- <-]].
  unfold mbind, child_bind.
  destruct (store_arg None p) as [[] q|e' q] eqn:Hstore.
  - unfold execvp. destruct (exec_ok env (chomp program_name)); [by intros [= <- <-]|].
    unfold mbind, child_bind, perror, emit, exit. intros [= <- <-].
    right. exists "execvp". split; [by right; right|]. simpl. apply last_snoc.
  - intros [= <- <-]. by apply store_arg_stops in Hstore as [? _].
Qed.

End Endings.

(** X10.  A child that exits does so with status 0, 1, 2 or 3, and with a
    status other than 0 only just after it has reported why with [perror]:
    [open] or [close] for 1, [dup2] for 2, [execvp] for 3. *)
Theorem child_exit_status env arg r w p status p' :
  process_args env arg r w p = (Exited status, p') →
  status = 0%Z
  ∨ ∃ what, reported status what ∧ last (log p') = Some (Perror what).
Proof.
  unfold process_args, process_args_body, mbind, child_bind.
  destruct (bind_stdout w p) as [[] p1|e1 p1] eqn:Hout.
  - destruct (bind_stdin r p1) as [[] p2|e2 p2] eqn:Hin.
    + destruct (scan_tokens env (tokens space arg) p2) as [[] p3|e3 p3] eqn:Hscan.
      * destruct (finish env (head (tokens space arg)) p3) as [[] p4|e4 p4] eqn:Hfin.
        intros [= -> ->]. by apply finish_accounted in Hfin.
      * intros [= -> ->]. by apply scan_tokens_stops in Hscan as [? _].
    + intros [= -> ->]. by apply bind_stdin_stops in Hin as [? _].
  - intros [= -> ->]. by apply bind_stdout_stops in Hout as [? _].
Qed.

Lemma child_exit_status_witness :
  3%Z = 0%Z
  ∨ ∃ what, reported 3 what
            ∧ last (log (process_args nothing_to_exec (line "nosuch") 0 1
                           (enter std_fds ∅ blank_stack)).2)
              = Some (Perror what).
Proof.
  apply (child_exit_status nothing_to_exec (line "nosuch") 0 1
           (enter std_fds ∅ blank_stack)).
  reflexivity.
Defined.

(** What [execvp] is called with. *)
Lemma exec_vector env arg r w t fs junk program argv p' :
  length junk = MAX_ARGS →
  process_args env arg r w (enter t fs junk) = (Execed program argv, p') →
  (∃ first, head (tokens space arg) = Some first ∧ program = chomp first)
  ∧ argv = chomp <$> arguments (tokens space arg)
  ∧ length argv < MAX_ARGS.
Proof.
  intros Hjunk. unfold process_args, process_args_body.
  set (p := enter t fs junk). unfold mbind, child_bind.
  destruct (bind_stdout w p) as [[] p1|e1 p1] eqn:Hout;
    [|intros [= -> ->]; by apply bind_stdout_stops in Hout as [_ ?]].
  destruct (bind_stdin r p1) as [[] p2|e2 p2] eqn:Hin;
    [|intros [= -> ->]; by apply bind_stdin_stops in Hin as [_ ?]].
  assert (buffered [] p2) as Hbuf.
  { assert ((bind_stdout w ;; bind_stdin r) p = Returns tt p2) as Hbind.
    { unfold mbind, child_bind. by rewrite Hout. }
    apply bind_keeps_buffer in Hbind as [Hb Hi].
    unfold buffered. by rewrite Hb, Hi. }
  destruct (scan_tokens env (tokens space arg) p2) as [[] p3|e3 p3] eqn:Hscan;
    [|intros [= -> ->]; by apply scan_tokens_stops in Hscan as [_ ?]].
  apply (scan_tokens_buffered env _ []) in Hscan; [|done]. simpl in Hscan.
  unfold finish. destruct (head (tokens space arg)) as [first|]; [|done].
  unfold mbind, child_bind.
  destruct (store_arg None p3) as [[] p4|e4 p4] eqn:Hstore;
    [|intros [= -> ->]; by apply store_arg_stops in Hstore as [_ ?]].
  eapply buffered_store_null in Hstore as (_ & Hlen & Hargv & _); [|done].
  unfold execvp. destruct (exec_ok env (chomp first)); [|done].
  intros [= <- <- <-]. rewrite Hargv, length_fmap in *. eauto.
Qed.

(** X9.  When a child whose segment holds fewer than [MAX_ARGS] argument
    tokens replaces its image, the program is the first token of its
    segment and the argument vector is made of the tokens of the segment,
    in order, without the redirection operators and the file name after
    each, every one cut at the line terminator.  What the stack held in
    [opt_args_buf] does not show. *)
Theorem exec_arguments env arg r w t fs junk program argv p' :
  length junk = MAX_ARGS →
  length (arguments (tokens space arg)) < MAX_ARGS →
  process_args env arg r w (enter t fs junk) = (Execed program argv, p') →
  (∃ first, head (tokens space arg) = Some first ∧ program = chomp first)
  ∧ argv = chomp <$> arguments (tokens space arg).
Proof.
  intros Hjunk _ Hexec.
  destruct (exec_vector env arg r w t fs junk program argv p' Hjunk Hexec)
    as (Hprogram & Hargv & _).
  done.
Qed.

Lemma exec_arguments_witness :
  (∃ first, head (tokens space (line "sort -r < in > out")) = Some first
            ∧ "sort" = chomp first)
  ∧ ["sort"; "-r"] = chomp <$> arguments (tokens space (line "sort -r < in > out")).
Proof.
  eapply (exec_arguments obliging (line "sort -r < in > out") 0 1 std_fds
            {[ "in" := "x" ]} blank_stack).
  - reflexivity.
  - vm_compute. lia.
  - by vm_compute.
Defined.

(** ** The child: a segment of plain tokens *)

Section PlainTokens.
Context (env : environment).

Lemma plain_tests token :
  plain token →
  streq token (line "exit") = false ∧ streq token "<" = false
  ∧ streq token ">" = false ∧ streq token ">>" = false.
Proof.
  intros [Hop Hexit]. unfold is_operator in Hop.
  apply orb_false_elim in Hop as [Hop Happ]. apply orb_false_elim in Hop as [Hin Hout].
  by apply streq_false in Hexit.
Qed.

Lemma scan_plain toks kept p :
  Forall plain toks → buffered kept p →
  if decide (length kept + length toks ≤ MAX_ARGS)
  then ∃ p', scan_tokens env toks p = Returns tt p'
             ∧ buffered (kept ++ (chomp <$> toks)) p'
             ∧ fds p' = fds p ∧ files p' = files p ∧ log p' = log p
  else ∃ p', scan_tokens env toks p = Stops (Undefined (OutOfBounds MAX_ARGS)) p'.
Proof.
  intros Hplain. revert kept p.
  induction Hplain as [|token rest Htoken _ IH]; intros kept p Hbuf; simpl.
  - pose proof (buffered_bound kept p Hbuf). rewrite decide_True by lia.
    exists p. by rewrite app_nil_r.
  - destruct (plain_tests token Htoken) as (-> & -> & -> & ->).
    unfold mbind, child_bind.
    destruct (decide (length kept < MAX_ARGS)) as [Hroom|Hfull].
    + destruct (keep_argument token p) as [[] p1|e1 p1] eqn:Hkeep.
      * destruct (buffered_keep_argument kept token p p1 Hbuf Hkeep)
          as (Hbuf1 & Hfds1 & Hfiles1 & Hlog1).
        specialize (IH (kept ++ [chomp token]) p1 Hbuf1).
        rewrite length_app in IH. simpl in IH.
        rewrite <- app_assoc in IH. simpl in IH.
        destruct (decide (length kept + S (length rest) ≤ MAX_ARGS)).
        -- rewrite decide_True in IH by lia.
           destruct IH as (p' & -> & ? & Hfds' & Hfiles' & Hlog').
           exists p'. split; [done|]. split; [done|]. repeat split; congruence.
        -- rewrite decide_False in IH by lia. done.
      * exfalso. unfold keep_argument, store_arg, mbind, child_bind in Hkeep.
        destruct Hbuf as (Hidx & _). rewrite decide_True in Hkeep by lia. done.
    + pose proof (buffered_bound kept p Hbuf).
      rewrite decide_False by lia.
      rewrite (keep_argument_overrun kept token p Hbuf) by lia. eauto.
Qed.

End PlainTokens.

(** X11.  A child given descriptors 0 and 1 whose segment holds only plain
    tokens, [k] of them, replaces its image with the first token as the
    program and all [k] tokens as the argument vector when [k] is less than
    [MAX_ARGS], or exits with status 3 when [execvp] fails.  With [MAX_ARGS]
    tokens or more it stores past the end of [opt_args_buf], at index
    [MAX_ARGS]: with exactly [MAX_ARGS] tokens it is the closing NULL that
    does not fit. *)
Theorem plain_segment env arg t fs junk first :
  length junk = MAX_ARGS →
  Forall plain (tokens space arg) →
  head (tokens space arg) = Some first →
  (process_args env arg 0 1 (enter t fs junk)).1 =
    if decide (length (tokens space arg) < MAX_ARGS) then
      if exec_ok env (chomp first)
      then Execed (chomp first) (chomp <$> tokens space arg)
      else Exited 3
    else Undefined (OutOfBounds MAX_ARGS).
Proof.
  intros Hjunk Hplain Hfirst. unfold process_args, process_args_body.
  unfold bind_stdout, bind_stdin. simpl. unfold mbind, child_bind, mret, child_ret.
  assert (buffered [] (enter t fs junk)) as Hbuf by done.
  pose proof (scan_plain env (tokens space arg) [] _ Hplain Hbuf) as Hscan.
  simpl in Hscan. rewrite Hfirst.
  destruct (decide (length (tokens space arg) ≤ MAX_ARGS)) as [Hle|Hgt].
  - destruct Hscan as (p' & -> & Hbuf' & _). unfold finish, mbind, child_bind.
    destruct (decide (length (tokens space arg) < MAX_ARGS)) as [Hlt|Heq].
    + destruct (store_arg None p') as [[] p1|e1 p1] eqn:Hstore.
      * eapply buffered_store_null in Hstore as (_ & _ & Hargv & _); [|done].
        unfold execvp. rewrite Hargv. by destruct (exec_ok env (chomp first)).
      * exfalso. unfold store_arg in Hstore. destruct Hbuf' as (Hidx & _).
        rewrite length_fmap in Hidx. rewrite decide_True in Hstore by lia. done.
    + unfold store_arg. destruct Hbuf' as (Hidx & _). rewrite length_fmap in Hidx.
      rewrite decide_False by lia. simpl. do 2 f_equal. lia.
  - destruct Hscan as (p' & ->). simpl. by rewrite decide_False by lia.
Qed.

Lemma plain_segment_witness :
  (process_args obliging (line "p 1 2 3 4 5 6 7 8 9") 0 1
     (enter std_fds ∅ blank_stack)).1
  = Undefined (OutOfBounds MAX_ARGS).
Proof.
  apply (plain_segment obliging (line "p 1 2 3 4 5 6 7 8 9") std_fds ∅ blank_stack "p").
  - reflexivity.
  - repeat constructor; by vm_compute.
  - reflexivity.
Defined.

(** ** The child: redirections that fail, descriptors that stay *)

(** X12.  When the token loop arrives at [<] followed by the name of a file
    that is not there, the child reports [open] and exits with status 1:
    it makes no file, changes no descriptor and runs no program, whatever
    follows in the segment. *)
Theorem input_file_not_there env arg r w p pre file post p1 :
  tokens space arg = pre ++ "<" :: file :: post →
  (bind_stdout w ;; bind_stdin r ;; scan_tokens env pre) p = Returns tt p1 →
  files p1 !! chomp file = None →
  ∃ p', process_args env arg r w p = (Exited 1, p')
        ∧ log p' = log p1 ++ [Open (chomp file) O_RDONLY None; Perror "open"]
        ∧ files p' = files p1 ∧ fds p' = fds p1.
Proof.
  intros Htoks Hpre Hmissing. unfold process_args, process_args_body.
  rewrite Htoks. unfold mbind, child_bind in *.
  destruct (bind_stdout w p) as [[] p2|]; [|done].
  destruct (bind_stdin r p2) as [[] p3|]; [|done].
  rewrite (scan_tokens_app env pre _ p3 p1 Hpre). simpl.
  unfold mbind, child_bind, redirect_input, mbind, child_bind, open, sys_open.
  rewrite Hmissing.
  destruct (open_denied env (chomp file)); simpl;
    (eexists; split; [done|]; simpl; by rewrite <- app_assoc).
Qed.

Lemma input_file_not_there_witness :
  ∃ p', process_args obliging (line "cat < nofile") 0 1 (enter std_fds ∅ blank_stack)
        = (Exited 1, p')
        ∧ log p' = [Open "nofile" O_RDONLY None; Perror "open"]
        ∧ files p' = ∅ ∧ fds p' = std_fds.
Proof.
  apply (input_file_not_there obliging (line "cat < nofile") 0 1
           (enter std_fds ∅ blank_stack) ["cat"] (line "nofile") []
           {| fds := std_fds; files := ∅;
              opt_args_buf := <[0 := Some "cat"]> blank_stack;
              args_buf_index := 1; log := [] |});
    reflexivity.
Defined.

Lemma redirect_returns env path flags mode target p p' :
  (fd ← open env path flags mode;
   match fd with
   | None => perror "open" ;; exit 1
   | Some fd => or_die (dup2 fd target) "dup2" 2 ;; store_arg None
   end) p = Returns tt p' →
  fds p' = <[target := OpenFile path flags]>
             (<[lowest_free (fds p) := OpenFile path flags]> (fds p)).
Proof.
  unfold mbind, child_bind, open, sys_open, or_die, mbind, child_bind, dup2, sys_dup2,
    store_arg, perror, emit, exit, mret, child_ret.
  destruct (open_denied env path); [done|].
  destruct (files p !! path); repeat (case_match; simpl in * ); simplify_eq/=;
    try done; rewrite ?lookup_insert_eq in *; simplify_eq/=;
    intros; simplify_eq/=; done.
Qed.

(** X13.  A redirection that succeeds leaves the descriptor [open] returned
    open beside the standard stream it was duplicated onto: when that
    stream was open before, the child holds one descriptor more than
    before, and it is one that refers to the file. *)
Theorem redirection_adds_a_descriptor env file p p' :
  redirect_input env (Some file) p = Returns tt p'
  ∨ redirect_output env (Some file) p = Returns tt p'
  ∨ redirect_append env (Some file) p = Returns tt p' →
  is_Some (fds p !! 0) → is_Some (fds p !! 1) →
  size (fds p') = S (size (fds p))
  ∧ ∃ flags, fds p' !! lowest_free (fds p) = Some (OpenFile (chomp file) flags).
Proof.
  intros Hredir Hstdin Hstdout.
  pose proof (lowest_free_fresh (fds p)) as Hfresh.
  pose proof (free_above_std _ _ Hstdin Hstdout Hfresh) as Habove.
  assert (∃ flags target,
            is_Some (fds p !! target) ∧ target ≠ lowest_free (fds p)
            ∧ fds p' = <[target := OpenFile (chomp file) flags]>
                         (<[lowest_free (fds p) := OpenFile (chomp file) flags]> (fds p)))
    as (flags & target & Hopen & Hne & ->).
  { destruct Hredir as [H|[H|H]]; apply redirect_returns in H;
      eexists _, _; (split; [|split; [|exact H]]); first [done|lia]. }
  split.
  - rewrite map_size_insert_Some by (by rewrite lookup_insert_ne).
    by rewrite map_size_insert_None.
  - exists flags. rewrite lookup_insert_ne by done. apply lookup_insert_eq.
Qed.

Lemma redirection_adds_a_descriptor_witness :
  let p := enter std_fds {[ "f" := "x" ]} blank_stack in
  let p' := after (redirect_input obliging (Some (line "f")) p) in
  size (fds p') = 4
  ∧ ∃ flags, fds p' !! 3 = Some (OpenFile "f" flags).
Proof.
  intros p p'.
  apply (redirection_adds_a_descriptor obliging (line "f") p p').
  - left. reflexivity.
  - eexists; reflexivity.
  - eexists; reflexivity.
Defined.

(** ** [main]: the read loop *)

Lemma stage_exit env num_pipes token s status s' :
  stage env num_pipes token s = (Exit status, s') →
  status = 0%Z ∨ (status = 1%Z ∧ last (sh_log s') = Some (Perror "fork")).
Proof.
  unfold stage, parent_closes. intros H.
  repeat (case_decide || case_match); simplify_eq/=; auto;
    right; (split; [done|]); apply last_snoc.
Qed.

Lemma stage_loop_exit env num_pipes segments s status s' :
  stage_loop env num_pipes segments s = (Exit status, s') →
  status = 0%Z ∨ (status = 1%Z ∧ last (sh_log s') = Some (Perror "fork")).
Proof.
  revert s. induction segments as [|token rest IH]; intros s; simpl; [done|].
  destruct (stage env num_pipes token s) as [[| |status1] s1] eqn:Hstage.
  - apply IH.
  - done.
  - intros [= <- <-]. by apply stage_exit in Hstage.
Qed.

Lemma read_loop_status script s :
  (read_loop script s).1 = 0%Z
  ∨ ((read_loop script s).1 = 1%Z
     ∧ last (sh_log (read_loop script s).2) = Some (Perror "fork")).
Proof.
  revert s. induction script as [|[env input] rest IH]; intros s; simpl; [by left|].
  unfold read_eval.
  destruct (stage_loop _ _ _ _) as [[| |status] s1] eqn:Hloop; simpl; [apply IH..|].
  by apply stage_loop_exit in Hloop.
Qed.

(** X14.  Whatever lines it reads and whatever fails, [main] ends with
    status 0 or 1, and with 1 only just after it has reported a [fork] that
    failed. *)
Theorem main_status script :
  (main script).1 = 0%Z
  ∨ ((main script).1 = 1%Z
     ∧ last (sh_log (main script).2) = Some (Perror "fork")).
Proof. apply read_loop_status. Qed.

(** X15.  A line that is [exit] ends [main]: the lines that follow it are
    not read and change nothing. *)
Theorem nothing_after_exit env pre post :
  main (pre ++ (env, line "exit") :: post) = main (pre ++ [(env, line "exit")]).
Proof.
  unfold main. generalize boot.
  induction pre as [|[env1 input1] pre IH]; intros s.
  - reflexivity.
  - simpl. destruct (read_eval env1 input1 s) as [[status|] s1]; [done|]. apply IH.
Qed.

(** ** More segments than pipes counted *)

Section Surplus.
Context (env : environment) (num_pipes : nat) (base : fd_table).

Lemma stage_loop_during_line_continue segments s s' :
  during_line base num_pipes s →
  stage_loop env num_pipes segments s = (Continue, s') →
  during_line base num_pipes s'.
Proof.
  revert s. induction segments as [|token rest IH]; intros s Hinv; simpl.
  - by intros [= <-].
  - destruct (stage env num_pipes token s) as [fl1 s1] eqn:Hstage.
    pose proof (stage_during_line env num_pipes base token s fl1 s1 Hinv Hstage) as Hstep.
    destruct fl1 as [| |status]; [|done..]. by apply IH.
Qed.

Lemma stage_write_end_closed token s s' :
  during_line base num_pipes s → write_end_closed base num_pipes s →
  stage env num_pipes token s = (Continue, s') →
  write_end_closed base num_pipes s'.
Proof.
  intros Hinv Hclosed. unfold stage.
  destruct (streq token (line "exit")); [done|].
  destruct (streq token (line "")); [done|].
  unfold during_line, write_end_closed in *.
  destruct (decide (pipe_index s < num_pipes)) as [Hlt|Hge].
  - destruct (pipe_ok env (pipe_index s)); [|done].
    destruct (fork_ok env (pipe_index s)); [|done].
    unfold parent_closes, forked, open_pipe, sys_pipe; simpl.
    set (r := lowest_free (sh_fds s)).
    set (w := lowest_free (<[r := PipeRead (pipes_made s)]> (sh_fds s))).
    pose proof (lowest_free_fresh (<[r := PipeRead (pipes_made s)]> (sh_fds s))) as Hw.
    fold w in Hw. apply lookup_insert_None in Hw as [Hw _].
    assert (base !! w = None) as Hbase.
    { destruct (decide (pipe_index s = 0)); [by rewrite <- Hinv|].
      rewrite decide_True in Hinv by lia. destruct Hinv as [_ [id Ht]].
      rewrite Ht in Hw. by apply lookup_insert_None in Hw as [? _]. }
    intros Hstep _ _.
    repeat (case_decide || case_match); simplify_eq/=; done.
  - destruct (fork_ok env (pipe_index s)); [|done].
    unfold parent_closes, forked; simpl. intros Hstep _ Hpos.
    assert (base !! write_fd s = None) as Hbase by (apply Hclosed; lia).
    repeat (case_decide || case_match); simplify_eq/=; done.
Qed.

Lemma stage_loop_write_end_closed segments s s' :
  during_line base num_pipes s → write_end_closed base num_pipes s →
  stage_loop env num_pipes segments s = (Continue, s') →
  write_end_closed base num_pipes s'.
Proof.
  revert s. induction segments as [|token rest IH]; intros s Hinv Hclosed; simpl.
  - by intros [= <-].
  - destruct (stage env num_pipes token s) as [fl1 s1] eqn:Hstage.
    destruct fl1 as [| |status]; [|done..].
    pose proof (stage_during_line env num_pipes base token s _ s1 Hinv Hstage) as Hinv1.
    pose proof (stage_write_end_closed token s s1 Hinv Hclosed Hstage) as Hclosed1.
    by apply IH.
Qed.

Lemma stage_continue_log token s s' :
  stage env num_pipes token s = (Continue, s') → sh_log s' = sh_log s.
Proof.
  unfold stage, parent_closes. intros H.
  repeat (case_decide || case_match); simplify_eq/=;
    try done; unfold open_pipe, sys_pipe; done.
Qed.

Lemma stage_loop_continue_log segments s s' :
  stage_loop env num_pipes segments s = (Continue, s') → sh_log s' = sh_log s.
Proof.
  revert s. induction segments as [|token rest IH]; intros s; simpl.
  - by intros [= <-].
  - destruct (stage env num_pipes token s) as [[| |status] s1] eqn:Hstage; [|done..].
    intros Hrest. apply stage_continue_log in Hstage. apply IH in Hrest. congruence.
Qed.

End Surplus.

Lemma waits_log n s : sh_log (Nat.iter n wait s) = sh_log s ++ replicate n Wait.
Proof.
  induction n as [|n IH]; simpl; [by rewrite app_nil_r|].
  rewrite IH, <- app_assoc. f_equal.
  change [Wait] with (replicate 1 Wait). rewrite <- replicate_add.
  by rewrite Nat.add_1_r.
Qed.

(** X16.  On a line with pipes counted and one segment more than
    [count_pipes + 1], the stages up to stage [count_pipes] run as a
    pipeline, and the segment after them is forked with a read and a write
    descriptor that are both closed: its child reports [dup2] and exits
    with status 2 before it looks at its segment.  The shell then fails to
    close the stale read descriptor, reports [close] and leaves the stage
    loop: no segment after that one is forked, and the shell's table is the
    one it had before the line. *)
Theorem surplus_segment env input s pre token post fs junk :
  let num_pipes := count_pipes (c_str input) in
  tokens bar (c_str input) = pre ++ token :: post →
  length pre = S num_pipes → 0 < num_pipes →
  Forall runs_a_stage pre → runs_a_stage token →
  no_failure env num_pipes → fork_ok env (S num_pipes) = true →
  is_Some (sh_fds s !! 1) →
  ∃ s' cs c,
    read_eval env input s = (None, s')
    ∧ spawned s' = spawned s ++ cs ++ [c] ∧ length cs = S num_pipes
    ∧ arg_str c = token
    ∧ inherited c !! given_read_fd c = None
    ∧ inherited c !! given_write_fd c = None
    ∧ (run_child env fs junk c).1 = Exited 2
    ∧ sh_fds s' = sh_fds s
    ∧ sh_log s' = sh_log s ++ [Perror "close"] ++ replicate (num_pipes + 1) Wait ++ [Prompt].
Proof.
  intros num_pipes Hsegs Hlen Hpos Hrun [Hexit Hnl] Hok Hfork Hstdout.
  set (base := sh_fds s).
  assert (between_stages base num_pipes (reset s)) as Hbetween.
  { unfold between_stages. rewrite decide_True; [done|by left]. }
  assert (during_line base num_pipes (reset s)) as Hduring.
  { unfold during_line. by rewrite decide_True. }
  assert (write_end_closed base num_pipes (reset s)) as Hclosed by (by intros ?).
  destruct (stage_loop_between_stages env num_pipes base pre (reset s)
              Hbetween ltac:(simpl; lia) Hrun Hok) as (s1 & Hloop & Hfds1 & _).
  pose proof (stage_loop_during_line_continue env num_pipes base pre _ s1 Hduring Hloop)
    as Hduring1.
  pose proof (stage_loop_write_end_closed env num_pipes base pre _ s1 Hduring Hclosed Hloop)
    as Hclosed1.
  pose proof (stage_loop_continue_log env num_pipes pre _ s1 Hloop) as Hlog1.
  pose proof (stage_loop_spawned_prefix env num_pipes pre (reset s)) as [cs Hcs].
  rewrite Hloop in Hcs. simpl in Hcs.
  apply stage_loop_continue_spawns in Hloop as Hcount. destruct Hcount as [Hcount Hidx].
  simpl in Hcount, Hidx. rewrite Hlen in Hidx.
  assert (length cs = S num_pipes) as Hcslen.
  { rewrite Hcs, length_app in Hcount. lia. }
  unfold during_line in Hduring1. rewrite !decide_False in Hduring1 by lia.
  destruct Hduring1 as [_ Hread]. specialize (Hread Hpos).
  specialize (Hclosed1 ltac:(lia) Hpos).
  assert (write_fd s1 ≠ 1) as Hw1.
  { intros Heq. rewrite Heq in Hclosed1. destruct Hstdout as [? Hstdout].
    fold base in Hstdout. congruence. }
  unfold read_eval. fold num_pipes. rewrite Hsegs, stage_loop_app, Hloop. simpl.
  unfold stage. apply streq_false in Hexit, Hnl. rewrite Hexit, Hnl.
  rewrite decide_False by lia. rewrite Hidx, Hfork.
  unfold parent_closes, forked; simpl. rewrite !Hidx.
  rewrite (decide_True (P := 0 < _)) by done.
  rewrite (decide_False (P := S _ < _)) by lia.
  rewrite (decide_True (P := _ ≠ _)) by lia.
  rewrite (decide_False (P := S num_pipes = 0)) by lia.
  rewrite (decide_False (P := S num_pipes = num_pipes)) by lia.
  unfold sys_close. rewrite Hfds1, Hread. simpl.
  match goal with
  | |- context [Nat.iter ?n wait ?st] =>
      destruct (waits_keep n st) as (Hwf & _ & Hws);
      pose proof (waits_log n st) as Hwl;
      set (waited := Nat.iter n wait st) in *
  end.
  eexists _, cs, _. split; [done|].
  unfold print_prompt, say. cbn [spawned sh_fds sh_log].
  rewrite Hws, Hwf, Hwl. simpl. rewrite Hcs, Hlog1, <- !app_assoc. simpl.
  split; [done|]. simpl. repeat split; try done.
  unfold run_child, process_args, process_args_body, bind_stdout; simpl.
  rewrite decide_True by done.
  unfold mbind, child_bind, or_die, mbind, child_bind, dup2, sys_dup2; simpl.
  by rewrite Hclosed1.
Qed.

Lemma surplus_segment_witness :
  ∃ s' cs c,
    read_eval obliging (line "a | b|c|d") boot = (None, s')
    ∧ spawned s' = [] ++ cs ++ [c] ∧ length cs = 2
    ∧ arg_str c = "c"
    ∧ inherited c !! given_read_fd c = None
    ∧ inherited c !! given_write_fd c = None
    ∧ (run_child obliging ∅ blank_stack c).1 = Exited 2
    ∧ sh_fds s' = std_fds
    ∧ sh_log s' = [Prompt] ++ [Perror "close"] ++ replicate 2 Wait ++ [Prompt].
Proof.
  apply (surplus_segment obliging (line "a | b|c|d") boot ["a "; " b"] "c" [line "d"]
           ∅ blank_stack).
  - reflexivity.
  - reflexivity.
  - vm_compute. lia.
  - repeat constructor; by vm_compute.
  - split; by vm_compute.
  - apply obliging_no_failure.
  - reflexivity.
  - eexists; reflexivity.
Defined.

(** ** What the program is handed, what the shell prints, what it makes *)

Lemma chomp_no_newline s : occurs newline (chomp s) = false.
Proof.
  induction s as [|c s IH]; simpl; [done|].
  destruct (Ascii.eqb c newline) eqn:Hc; simpl; [done|]. by rewrite Hc.
Qed.

(** X17.  The program a child runs is never handed a line terminator: it
    occurs neither in the program name nor in any entry of the argument
    vector. *)
Theorem exec_without_newline env arg r w t fs junk program argv p' :
  length junk = MAX_ARGS →
  process_args env arg r w (enter t fs junk) = (Execed program argv, p') →
  occurs newline program = false
  ∧ Forall (λ a, occurs newline a = false) argv.
Proof.
  intros Hjunk Hexec.
  destruct (exec_vector env arg r w t fs junk program argv p' Hjunk Hexec)
    as ((first & _ & ->) & -> & _).
  split; [apply chomp_no_newline|].
  apply Forall_fmap, Forall_true. intros a. apply chomp_no_newline.
Qed.

Lemma exec_without_newline_witness :
  occurs newline "ls" = false
  ∧ Forall (λ a, occurs newline a = false) ["ls"; "-l"].
Proof.
  eapply (exec_without_newline obliging (line "ls -l") 0 1 std_fds ∅ blank_stack).
  - reflexivity.
  - by vm_compute.
Defined.

Section Output.
Context (env : environment) (num_pipes : nat).

Lemma stage_break_log token s s' :
  stage env num_pipes token s = (Break, s') →
  sh_log s' = sh_log s
  ∨ sh_log s' = sh_log s ++ [Perror "pipe"]
  ∨ sh_log s' = sh_log s ++ [Perror "close"].
Proof.
  unfold stage, parent_closes. intros H.
  repeat (case_decide || case_match); simplify_eq/=; auto;
    unfold open_pipe, sys_pipe; simpl; auto.
Qed.

Lemma stage_loop_log segments s fl s' :
  stage_loop env num_pipes segments s = (fl, s') →
  (∀ status, fl ≠ Exit status) →
  sh_log s' = sh_log s
  ∨ sh_log s' = sh_log s ++ [Perror "pipe"]
  ∨ sh_log s' = sh_log s ++ [Perror "close"].
Proof.
  revert s. induction segments as [|token rest IH]; intros s; simpl.
  - intros [= <- <-] _. by left.
  - destruct (stage env num_pipes token s) as [[| |status] s1] eqn:Hstage.
    + intros Hrest Hne. apply stage_continue_log in Hstage. rewrite <- Hstage.
      by apply IH.
    + intros [= <- <-] _. by apply stage_break_log in Hstage.
    + intros [= <- <-] Hne. by destruct (Hne status).
Qed.

Lemma stage_bounds token s fl s' :
  stage env num_pipes token s = (fl, s') →
  pipes_made s ≤ pipes_made s'
  ∧ (fl = Continue →
     pipes_made s' + (num_pipes - pipe_index s')
     ≤ pipes_made s + (num_pipes - pipe_index s))
  ∧ pipes_made s' ≤ pipes_made s + (num_pipes - pipe_index s)
  ∧ length (spawned s') ≤ S (length (spawned s)).
Proof.
  unfold stage, parent_closes. intros H.
  repeat (case_decide || case_match); simplify_eq/=;
    unfold open_pipe, sys_pipe; simpl; rewrite ?length_app; simpl;
    repeat split; try done; lia.
Qed.

Lemma stage_loop_bounds segments s fl s' :
  stage_loop env num_pipes segments s = (fl, s') →
  pipes_made s ≤ pipes_made s'
  ∧ pipes_made s' ≤ pipes_made s + (num_pipes - pipe_index s)
  ∧ length (spawned s') ≤ length (spawned s) + length segments.
Proof.
  revert s. induction segments as [|token rest IH]; intros s; simpl.
  - intros [= <- <-]. lia.
  - destruct (stage env num_pipes token s) as [fl1 s1] eqn:Hstage.
    apply stage_bounds in Hstage as (Hmono & Hcont & Hbound & Hsp).
    destruct fl1 as [| |status].
    + intros Hrest. apply IH in Hrest. specialize (Hcont eq_refl). lia.
    + intros [= <- <-]. lia.
    + intros [= <- <-]. lia.
Qed.

End Output.

(** X18.  For a line it goes on from, the shell prints at most one error
    report, for [pipe] or for [close], then calls [wait] once for every
    pipe counted and once more, and prints one prompt. *)
Theorem output_of_a_line env input s s' :
  read_eval env input s = (None, s') →
  ∃ report,
    (report = [] ∨ report = [Perror "pipe"] ∨ report = [Perror "close"])
    ∧ sh_log s' =
        sh_log s ++ report ++ replicate (count_pipes (c_str input) + 1) Wait ++ [Prompt].
Proof.
  unfold read_eval.
  destruct (stage_loop _ _ _ _) as [fl s1] eqn:Hloop.
  assert ((∀ status, fl ≠ Exit status) →
          ∃ report,
            (report = [] ∨ report = [Perror "pipe"] ∨ report = [Perror "close"])
            ∧ sh_log s1 = sh_log s ++ report) as Hreport.
  { intros Hne. apply stage_loop_log in Hloop; [|done]. simpl in Hloop.
    destruct Hloop as [Hlog|[Hlog|Hlog]]; rewrite Hlog.
    - exists []. split; [auto|]. by rewrite app_nil_r.
    - eexists. split; [|done]. auto.
    - eexists. split; [|done]. auto. }
  destruct fl as [| |status]; [| |done]; intros [= <-];
    (destruct Hreport as (report & Hcases & Hlog); [done|]);
    exists report; (split; [done|]);
    unfold print_prompt, say; cbn [sh_log];
    by rewrite waits_log, Hlog, <- !app_assoc.
Qed.

Lemma output_of_a_line_witness :
  ∃ report,
    (report = [] ∨ report = [Perror "pipe"] ∨ report = [Perror "close"])
    ∧ sh_log (read_eval obliging (line "a | b|c") boot).2 =
        [Prompt] ++ report ++ replicate 2 Wait ++ [Prompt].
Proof.
  apply (output_of_a_line obliging (line "a | b|c") boot
           (read_eval obliging (line "a | b|c") boot).2).
  by vm_compute.
Defined.

(** X19.  On no line does the shell make more pipes than [count_pipes]
    counted, nor fork more children than the line has segments; it never
    unmakes a pipe. *)
Theorem pipes_and_children_bounded env input s :
  let s' := (read_eval env input s).2 in
  pipes_made s ≤ pipes_made s'
  ∧ pipes_made s' ≤ pipes_made s + count_pipes (c_str input)
  ∧ length (spawned s') ≤ length (spawned s) + length (tokens bar (c_str input)).
Proof.
  unfold read_eval.
  destruct (stage_loop _ _ _ _) as [fl s1] eqn:Hloop.
  apply stage_loop_bounds in Hloop. simpl in Hloop.
  destruct fl as [| |status]; simpl;
    try (destruct (waits_keep (count_pipes (c_str input) + 1) s1) as (_ & -> & ->));
    lia.
Qed.
